(** * Queue<T>: an array-backed FIFO queue (queue.hpp)

    A shallow embedding of the class template [Queue<T>] and the proofs of
    its specification.  The class manages a raw buffer by hand, so the
    embedding keeps the memory the code sees:

    - a heap of blocks handed out by [::operator new], each a row of slots
      that are either raw storage or hold a constructed [T];
    - a store of [Queue] objects, addressed by [this], with the three
      members [m_Container], [m_Size], [m_Capacity];
    - [std::size_t] as [N] with every arithmetic result reduced modulo 2^64;
    - a reference to a [T] as either an object outside every buffer or a
      slot of a block, read when the code reads it;
    - member functions as computations in a state monad with two ways to
      leave early: a C++ exception, or undefined behaviour. *)

From stdpp Require Import base numbers option list gmap fin_maps.

Local Open Scope N_scope.

(** ** std::size_t *)

(** 2^64: [std::size_t] is taken to be 64 bits wide. *)
Definition SIZE_MOD : N := 18446744073709551616.

(** 2^63 - 1: no object is larger, [::operator new] refuses larger requests. *)
Definition PTRDIFF_MAX : N := 9223372036854775807.

(** The result of unsigned arithmetic, reduced to the width of [size_t]. *)
Definition wrap (n : N) : N := n mod SIZE_MOD.

(** [a - b] on [size_t]. *)
Definition wrap_sub (a b : N) : N := wrap (a + (SIZE_MOD - wrap b)).

(** Lowest address [::operator new] hands out. *)
Definition HEAP_BASE : N := 4096.

(** ** The element type *)

(** What the template uses of [T]: its size, and the state its move
    constructor leaves the source object in (valid, but up to [T]). Copy
    construction yields an equal value. *)
Class Element (T : Type) := {
  moved : T → T;
  sizeofT : N;
  sizeofT_pos : 0 < sizeofT;
  sizeofT_max : sizeofT ≤ PTRDIFF_MAX
}.

(** ** Memory *)

(** A slot of a buffer: raw storage, or a live object. *)
Inductive slot (T : Type) : Type :=
  | Uninit : slot T
  | Live (v : T) : slot T.
Arguments Uninit {T}.
Arguments Live {T} v.

(** A block obtained from [::operator new(bytes)], viewed as a [T*]. *)
Record block (T : Type) : Type := Block {
  blk_bytes : N;
  blk_slots : list (slot T)
}.
Arguments Block {T} _ _.
Arguments blk_bytes {T} _.
Arguments blk_slots {T} _.

(** The data members of [Queue<T>]. [m_Container] is an address. *)
Record Queue : Type := MkQueue {
  m_Container : N;
  m_Size : N;
  m_Capacity : N
}.

(** [static const SizeType INITIAL_CAPACITY = 1;] *)
Definition INITIAL_CAPACITY : N := 1.

Record state (T : Type) : Type := State {
  heap : gmap N (block T);
  objs : gmap N Queue
}.
Arguments State {T} _ _.
Arguments heap {T} _.
Arguments objs {T} _.

Inductive exn : Type :=
  | invalid_argument
  | bad_alloc.

(** How a call ends: it returns, it throws, or its behaviour is undefined. *)
Inductive result (T A : Type) : Type :=
  | Ok (a : A) (s : state T)
  | Throw (e : exn) (s : state T)
  | UB.
Arguments Ok {T A} a s.
Arguments Throw {T A} e s.
Arguments UB {T A}.

Definition M (T A : Type) : Type := state T → result T A.

Definition ret {T A} (a : A) : M T A := λ s, Ok a s.

Definition bind {T A B} (m : M T A) (k : A → M T B) : M T B :=
  λ s, match m s with
       | Ok a s' => k a s'
       | Throw e s' => Throw e s'
       | UB => UB
       end.

Definition throw {T A} (e : exn) : M T A := λ s, Throw e s.

Definition undefined {T A} : M T A := λ _, UB.

Declare Scope queue_scope.
Delimit Scope queue_scope with Q.
Notation "'let*' x := m 'in' k" := (bind m (λ x, k))
  (at level 10, x name, m at level 100, k at level 200) : queue_scope.
Notation "m >> k" := (bind m (λ _, k))
  (at level 100, k at level 200, right associativity) : queue_scope.
Local Open Scope queue_scope.

(** [for (SizeType i = lo; ...; ++i) body], [n] iterations. *)
Fixpoint for_range {T} (i : N) (n : nat) (body : N → M T unit) : M T unit :=
  match n with
  | O => ret tt
  | S n' => body i >> for_range (N.succ i) n' body
  end.

(** A reference to a [T], as [Front()] returns and [Push] takes: to an
    object outside every buffer, given by its value, or to a slot of a
    buffer, given by the address of the block and the index. *)
Inductive ref (T : Type) : Type :=
  | Outside (v : T)
  | Inside (p i : N).
Arguments Outside {T} v.
Arguments Inside {T} p i.

Section queue.
Context {T : Type} `{!Element T}.

Implicit Types (s : state T) (q : Queue) (h : gmap N (block T)).

(** *** The allocator *)

(** The first address above every block in use. *)
Definition heap_top (h : gmap N (block T)) : N :=
  map_fold (λ p b acc, N.max acc (p + N.max 1 (blk_bytes b))) HEAP_BASE h.

(** [::operator new(bytes)]: a fresh block of raw storage, enough for
    [bytes / sizeof(T)] slots. A request above [PTRDIFF_MAX] is answered
    with [std::bad_alloc]; every other request is served. *)
Definition operator_new (bytes : N) : M T N := λ s,
  if PTRDIFF_MAX <? bytes then Throw bad_alloc s
  else
    let p := heap_top (heap s) in
    Ok p (State (<[p := Block bytes (replicate (N.to_nat (bytes / sizeofT)) Uninit)]> (heap s))
                (objs s)).

(** [::operator delete(p, bytes)]: [p] must come from [operator new(bytes)]. *)
Definition operator_delete (p bytes : N) : M T unit := λ s,
  match heap s !! p with
  | Some b =>
      if blk_bytes b =? bytes then Ok tt (State (delete p (heap s)) (objs s)) else UB
  | None => UB
  end.

(** *** Slots of a buffer *)

Definition load_slot (p i : N) : M T (slot T) := λ s,
  match heap s !! p with
  | Some b =>
      match blk_slots b !! N.to_nat i with
      | Some x => Ok x s
      | None => UB
      end
  | None => UB
  end.

Definition store_slot (p i : N) (x : slot T) : M T unit := λ s,
  match heap s !! p with
  | Some b =>
      if decide (N.to_nat i < length (blk_slots b))%nat then
        Ok tt (State (<[p := Block (blk_bytes b) (<[N.to_nat i := x]> (blk_slots b))]> (heap s))
                     (objs s))
      else UB
  | None => UB
  end.

(** [p[i]] read as a value. *)
Definition read (p i : N) : M T T :=
  let* x := load_slot p i in
  match x with
  | Live v => ret v
  | Uninit => undefined
  end.

(** [new (&p[i]) T(v)] *)
Definition construct_at (p i : N) (v : T) : M T unit :=
  store_slot p i (Live v).

(** [p[i].~T()] *)
Definition destroy_at (p i : N) : M T unit :=
  let* x := load_slot p i in
  match x with
  | Live _ => store_slot p i Uninit
  | Uninit => undefined
  end.

(** [std::move(p[i])] handed to [T]'s move constructor: the value goes to
    the new object, the source stays alive in its moved-from state. *)
Definition move_out (p i : N) : M T T :=
  let* v := read p i in
  store_slot p i (Live (moved v)) >>
  ret v.

(** [T(r)]: the value of the object [r] refers to, read when the copy is
    made. *)
Definition deref (r : ref T) : M T T :=
  match r with
  | Outside v => ret v
  | Inside p i => read p i
  end.

(** [T(std::move(r))]: the value goes to the new object, the object [r]
    refers to stays in its moved-from state. *)
Definition take (r : ref T) : M T T :=
  match r with
  | Outside v => ret v
  | Inside p i => move_out p i
  end.

(** The object [r] referred to, once it has been moved from. *)
Definition after_move (r : ref T) : ref T :=
  match r with
  | Outside v => Outside (moved v)
  | Inside p i => Inside p i
  end.

(** The reference [r] designates, in [s], a live object of value [v]. *)
Definition designates (s : state T) (r : ref T) (v : T) : Prop :=
  match r with
  | Outside w => w = v
  | Inside p i => ∃ b, heap s !! p = Some b ∧ blk_slots b !! N.to_nat i = Some (Live v)
  end.

(** *** Queue objects *)

Definition load (this : N) : M T Queue := λ s,
  match objs s !! this with
  | Some q => Ok q s
  | None => UB
  end.

Definition store (this : N) (q : Queue) : M T unit := λ s,
  Ok tt (State (heap s) (<[this := q]> (objs s))).

Definition set_m_Container (this p : N) : M T unit :=
  let* q := load this in store this (MkQueue p (m_Size q) (m_Capacity q)).

Definition set_m_Size (this n : N) : M T unit :=
  let* q := load this in store this (MkQueue (m_Container q) n (m_Capacity q)).

Definition set_m_Capacity (this n : N) : M T unit :=
  let* q := load this in store this (MkQueue (m_Container q) (m_Size q) n).

(** ** The member functions *)

(** [Queue()] *)
Definition Queue_default (this : N) : M T unit :=
  let* p := operator_new (wrap (INITIAL_CAPACITY * sizeofT)) in
  store this (MkQueue p 0 INITIAL_CAPACITY).

(** The loop shared by the copy constructor and copy assignment:
    [for (i = 0; i < m_Size; ++i) new (&m_Container[i]) T(other.m_Container[i]);] *)
Definition copy_elements (this other : N) : M T unit :=
  let* q := load this in
  for_range 0 (N.to_nat (m_Size q)) (λ i,
    let* q := load this in
    let* o := load other in
    let* v := read (m_Container o) i in
    construct_at (m_Container q) i v).

(** [Queue(const Queue& other)] *)
Definition Queue_copy (this other : N) : M T unit :=
  let* o := load other in
  let* p := operator_new (wrap (m_Capacity o * sizeofT)) in
  store this (MkQueue p (m_Size o) (m_Capacity o)) >>
  copy_elements this other.

(** [Queue(Queue&& other)], as written: [m_Container] is initialised from
    [other.m_Capacity], and the fresh block is assigned to
    [other.m_Capacity], which the last statement overwrites. A [size_t]
    used as a pointer is the address with that number, and the other way
    round. *)
Definition Queue_move (this other : N) : M T unit :=
  let* o := load other in
  store this (MkQueue (m_Capacity o) (m_Size o) (m_Capacity o)) >>
  let* p := operator_new (wrap (INITIAL_CAPACITY * sizeofT)) in
  set_m_Capacity other (wrap p) >>
  set_m_Size other 0 >>
  set_m_Capacity other INITIAL_CAPACITY.

(** [Clear()] *)
Definition Clear (this : N) : M T unit :=
  let* q := load this in
  for_range 0 (N.to_nat (m_Size q)) (λ i,
    let* q := load this in destroy_at (m_Container q) i) >>
  set_m_Size this 0.

(** [~Queue()] *)
Definition Queue_destroy (this : N) : M T unit :=
  Clear this >>
  let* q := load this in
  operator_delete (m_Container q) (wrap (m_Capacity q * sizeofT)) >>
  λ s, Ok tt (State (heap s) (delete this (objs s))).

(** [operator=(const Queue& other)] *)
Definition assign_copy (this other : N) : M T unit :=
  if decide (this = other) then ret tt
  else
    Clear this >>
    let* q := load this in
    operator_delete (m_Container q) (wrap (m_Capacity q * sizeofT)) >>
    let* o := load other in
    let* p := operator_new (wrap (m_Capacity o * sizeofT)) in
    set_m_Container this p >>
    let* o := load other in
    set_m_Size this (m_Size o) >>
    let* o := load other in
    set_m_Capacity this (m_Capacity o) >>
    copy_elements this other.

(** [operator=(Queue&& other)], as written: [m_Container] is assigned
    [other.m_Capacity], and nothing is cleared or released. *)
Definition assign_move (this other : N) : M T unit :=
  if decide (this = other) then ret tt
  else
    let* o := load other in
    set_m_Container this (m_Capacity o) >>
    let* o := load other in
    set_m_Size this (m_Size o) >>
    let* o := load other in
    set_m_Capacity this (m_Capacity o) >>
    let* p := operator_new (wrap (INITIAL_CAPACITY * sizeofT)) in
    set_m_Capacity other (wrap p) >>
    set_m_Size other 0 >>
    set_m_Capacity other INITIAL_CAPACITY.

Definition Empty (this : N) : M T bool :=
  let* q := load this in ret (m_Size q =? 0).

Definition Size (this : N) : M T N :=
  let* q := load this in ret (m_Size q).

Definition Capacity (this : N) : M T N :=
  let* q := load this in ret (m_Capacity q).

(** [Front()]: [m_Container[0]] *)
Definition Front (this : N) : M T T :=
  let* q := load this in read (m_Container q) 0.

(** [Front()], the reference itself, for a caller that passes it on. *)
Definition Front_ref (this : N) : M T (ref T) :=
  let* q := load this in ret (Inside (m_Container q) 0).

(** [Back()]: [m_Container[m_Size - 1]] *)
Definition Back (this : N) : M T T :=
  let* q := load this in read (m_Container q) (wrap_sub (m_Size q) 1).

(** [Back()], the reference itself. *)
Definition Back_ref (this : N) : M T (ref T) :=
  let* q := load this in ret (Inside (m_Container q) (wrap_sub (m_Size q) 1)).

(** [Reallocate(newCapacity)] *)
Definition Reallocate (this newCapacity : N) : M T unit :=
  let* q := load this in
  if newCapacity <=? m_Capacity q then throw invalid_argument
  else
    let* newContainer := operator_new (wrap (newCapacity * sizeofT)) in
    for_range 0 (N.to_nat (m_Size q)) (λ i,
      let* q := load this in
      let* v := move_out (m_Container q) i in
      construct_at newContainer i v >>
      destroy_at (m_Container q) i) >>
    let* q := load this in
    operator_delete (m_Container q) (wrap (m_Capacity q * sizeofT)) >>
    set_m_Container this newContainer >>
    set_m_Capacity this newCapacity.

(** [Push(const ValueType& value)]: the argument is a reference, and it
    is read where [T(value)] is constructed, after [Reallocate]. *)
Definition Push (this : N) (value : ref T) : M T unit :=
  let* q := load this in
  (if m_Capacity q <=? m_Size q then Reallocate this (wrap (m_Capacity q * 2))
   else ret tt) >>
  let* q := load this in
  let* v := deref value in
  construct_at (m_Container q) (m_Size q) v >>
  set_m_Size this (wrap (m_Size q + 1)).

(** [Push(ValueType&& value)]: likewise, with [T(std::move(value))];
    returns the caller's argument as the call leaves it. *)
Definition Push_move (this : N) (value : ref T) : M T (ref T) :=
  let* q := load this in
  (if m_Capacity q <=? m_Size q then Reallocate this (wrap (m_Capacity q * 2))
   else ret tt) >>
  let* q := load this in
  let* v := take value in
  construct_at (m_Container q) (m_Size q) v >>
  set_m_Size this (wrap (m_Size q + 1)) >>
  ret (after_move value).

(** [Pop()] *)
Definition Pop (this : N) : M T unit :=
  let* q := load this in
  if m_Size q =? 0 then ret tt
  else
    set_m_Size this (wrap_sub (m_Size q) 1) >>
    let* q := load this in
    for_range 0 (N.to_nat (m_Size q)) (λ i,
      let* q := load this in
      destroy_at (m_Container q) i >>
      let* v := move_out (m_Container q) (wrap (i + 1)) in
      construct_at (m_Container q) i v) >>
    let* q := load this in
    destroy_at (m_Container q) (m_Size q).

(** ** Well-formed queues *)

(** The slots of a buffer of [cap] slots whose live elements are [l], front
    first: [l] constructed in slots [0, size), raw storage behind. *)
Definition slots_of (cap : N) (l : list T) : list (slot T) :=
  (Live <$> l) ++ replicate (N.to_nat cap - length l) Uninit.

(** In state [s] the queue object at [this] owns the buffer at [p], of
    [cap] slots, and its elements are [l], front first. *)
Definition holds (s : state T) (this p cap : N) (l : list T) : Prop :=
  objs s !! this = Some (MkQueue p (N.of_nat (length l)) cap) ∧
  heap s !! p = Some (Block (cap * sizeofT) (slots_of cap l)) ∧
  N.of_nat (length l) ≤ cap ∧
  0 < cap ∧
  cap * sizeofT ≤ PTRDIFF_MAX.

(** The state in which [this] has been given the buffer [p] with [cap]
    slots and elements [l], all else as in [s]. *)
Definition install (s : state T) (this p cap : N) (l : list T) : state T :=
  State (<[p := Block (cap * sizeofT) (slots_of cap l)]> (heap s))
        (<[this := MkQueue p (N.of_nat (length l)) cap]> (objs s)).

(** The state in which the block at [p] has been released. *)
Definition release (s : state T) (p : N) : state T :=
  State (delete p (heap s)) (objs s).

(** What one mutation does, seen from outside: the queue is well-formed
    again, in its old buffer or in one that was free before, and every
    other queue with a buffer of its own is as it was. *)
Definition steps_to (s : state T) (this p : N) (s' : state T) : Prop :=
  (∃ p1 c1 l1, holds s' this p1 c1 l1 ∧ (p1 = p ∨ heap s !! p1 = None)) ∧
  (∀ that p' c' l', holds s that p' c' l' → that ≠ this → p' ≠ p → holds s' that p' c' l').

(** [m] leaves every [Queue] object as it is. *)
Definition keeps_objs {A} (m : M T A) : Prop :=
  ∀ s a s', m s = Ok a s' → objs s' = objs s.

(** [m] throws nothing but [std::bad_alloc]. *)
Definition throws_bad_alloc_only {A} (m : M T A) : Prop :=
  ∀ s e s', m s = Throw e s' → e = bad_alloc.

(** [m] throws nothing. *)
Definition never_throws {A} (m : M T A) : Prop :=
  ∀ s e s', m s ≠ Throw e s'.

(** Every queue object has [m_Size <= m_Capacity]. *)
Definition sized (s : state T) : Prop :=
  ∀ this q, objs s !! this = Some q → m_Size q ≤ m_Capacity q.

(** ** Clients *)

(** The mutators of the public interface, pushing objects of the caller's
    own. *)
Inductive mutation : Type :=
  | MPush (v : T)
  | MPushMove (v : T)
  | MPop
  | MClear.

Definition mutate (this : N) (m : mutation) : M T unit :=
  match m with
  | MPush v => Push this (Outside v)
  | MPushMove v => Push_move this (Outside v) >> ret tt
  | MPop => Pop this
  | MClear => Clear this
  end.

Fixpoint mutate_all (this : N) (ms : list mutation) : M T unit :=
  match ms with
  | [] => ret tt
  | m :: ms' => mutate this m >> mutate_all this ms'
  end.

(** The calls of the public interface that construct or change a queue. *)
Inductive call : Type :=
  | CDefault (this : N)
  | CCopy (this other : N)
  | CMove (this other : N)
  | CAssignCopy (this other : N)
  | CAssignMove (this other : N)
  | CMutate (this : N) (m : mutation).

Definition exec (c : call) : M T unit :=
  match c with
  | CDefault this => Queue_default this
  | CCopy this other => Queue_copy this other
  | CMove this other => Queue_move this other
  | CAssignCopy this other => assign_copy this other
  | CAssignMove this other => assign_move this other
  | CMutate this m => mutate this m
  end.

(** A client that only pushes objects of its own and pops. *)
Inductive op : Type :=
  | OPush (v : T)
  | OPop.

(** Performs [ops] on the queue [this]; before each [Pop()] of a non-empty
    queue it looks at [Front()], and it returns what it saw, in order. *)
Fixpoint run (this : N) (ops : list op) : M T (list T) :=
  match ops with
  | [] => ret []
  | OPush v :: ops' => Push this (Outside v) >> run this ops'
  | OPop :: ops' =>
      let* e := Empty this in
      if e then Pop this >> run this ops'
      else
        let* x := Front this in
        Pop this >>
        let* xs := run this ops' in
        ret (x :: xs)
  end.

(** The values [ops] pushes, in push order. *)
Fixpoint pushed (ops : list op) : list T :=
  match ops with
  | [] => []
  | OPush v :: ops' => v :: pushed ops'
  | OPop :: ops' => pushed ops'
  end.

(** How many elements a FIFO queue of [n] elements has after [ops]. *)
Fixpoint queued (ops : list op) (n : nat) : nat :=
  match ops with
  | [] => n
  | OPush _ :: ops' => queued ops' (S n)
  | OPop :: ops' => queued ops' (pred n)
  end.

End queue.

Arguments keeps_objs T {A} m.
Arguments throws_bad_alloc_only T {A} m.
Arguments never_throws T {A} m.

(** ** An instance: [Queue<int>] *)

(** [int]: four bytes, and moving an [int] leaves it as it was. *)
#[export] Instance int_Element : Element Z :=
  {| moved := λ v, v;
     sizeofT := 4;
     sizeofT_pos := eq_refl;
     sizeofT_max := ltac:(discriminate) |}.

(** No block, no object. *)
Definition s_empty : state Z := State ∅ ∅.

(** [Queue<int> q;] at address 10. *)
Definition s_fresh : state Z :=
  State {[4096 := Block 4 [Uninit]]} {[10 := MkQueue 4096 0 1]}.

(** ... then [q.Push(1);] *)
Definition s_1 : state Z :=
  State {[4096 := Block 4 [Live 1%Z]]} {[10 := MkQueue 4096 1 1]}.

(** [s_1] after [Reallocate(2)]: the element is in a new block, the block
    at 4096 is released. *)
Definition s_1_grown : state Z :=
  State {[4100 := Block 8 [Live 1%Z; Uninit]]} {[10 := MkQueue 4100 1 2]}.

(** [s_1], then [q.Push(2);]: [q] holds 1, 2. *)
Definition s_12 : state Z :=
  State {[4100 := Block 8 [Live 1%Z; Live 2%Z]]} {[10 := MkQueue 4100 2 2]}.

(** ... then [q.Push(3);] *)
Definition s_123 : state Z :=
  State {[4108 := Block 16 [Live 1%Z; Live 2%Z; Live 3%Z; Uninit]]} {[10 := MkQueue 4108 3 4]}.

(** [s_12], then [Queue<int> r(std::move(q));] at address 11. *)
Definition s_12_moved : state Z :=
  State (<[4108 := Block 4 [Uninit]]> {[4100 := Block 8 [Live 1%Z; Live 2%Z]]})
        (<[11 := MkQueue 2 2 2]> {[10 := MkQueue 4100 0 1]}).

(** [s_12], then [Queue<int> r; r.Push(7);] at address 11. *)
Definition s_12_7 : state Z :=
  State (<[4108 := Block 4 [Live 7%Z]]> {[4100 := Block 8 [Live 1%Z; Live 2%Z]]})
        (<[11 := MkQueue 4108 1 1]> {[10 := MkQueue 4100 2 2]}).

(** [s_12_7], then [r = std::move(q);] *)
Definition s_12_7_moved : state Z :=
  State (<[4112 := Block 4 [Uninit]]>
           (<[4108 := Block 4 [Live 7%Z]]> {[4100 := Block 8 [Live 1%Z; Live 2%Z]]}))
        (<[11 := MkQueue 2 2 2]> {[10 := MkQueue 4100 0 1]}).

(** [s_12_7], then [r = q;] *)
Definition s_12_7_copied : state Z :=
  State (<[4108 := Block 8 [Live 1%Z; Live 2%Z]]> {[4100 := Block 8 [Live 1%Z; Live 2%Z]]})
        (<[11 := MkQueue 4108 2 2]> {[10 := MkQueue 4100 2 2]}).

(** An element type of 2^62 bytes: a buffer of one element fits, a buffer
    of two is more than [::operator new] gives. Not an instance: it is
    named where it is meant. *)
Definition huge_Element : Element unit :=
  {| moved := λ v, v;
     sizeofT := 4611686018427387904;
     sizeofT_pos := eq_refl;
     sizeofT_max := ltac:(discriminate) |}.

(** A full queue of one such element. *)
Definition s_huge : state unit :=
  State {[4096 := Block 4611686018427387904 [Live tt]]} {[10 := MkQueue 4096 1 1]}.

(** A queue object whose members say 2^63 elements in 2^63 slots. *)
Definition s_wide : state Z :=
  State ∅ {[10 := MkQueue 4096 9223372036854775808 9223372036854775808]}.

(** * Proofs *)

(** ** size_t arithmetic *)

Lemma wrap_small n : n < SIZE_MOD → wrap n = n.
Proof. intros Hn. unfold wrap. by apply N.mod_small. Qed.

Lemma wrap_lt n : wrap n < SIZE_MOD.
Proof. unfold wrap. by apply N.mod_lt. Qed.

Lemma wrap_le n : wrap n ≤ n.
Proof. unfold wrap. by apply N.Div0.mod_le. Qed.

Lemma wrap_sub_small a b : b ≤ a → a < SIZE_MOD → wrap_sub a b = a - b.
Proof.
  intros Hb Ha. unfold wrap_sub.
  rewrite (wrap_small b) by lia.
  replace (a + (SIZE_MOD - b)) with ((a - b) + 1 * SIZE_MOD) by lia.
  unfold wrap. rewrite N.Div0.mod_add. apply N.mod_small. lia.
Qed.

Section proofs.
Context {T : Type} `{!Element T}.

Implicit Types (s : state T) (q : Queue) (h : gmap N (block T)) (l : list T).

Lemma bytes_bound cap : cap * sizeofT ≤ PTRDIFF_MAX → cap ≤ PTRDIFF_MAX.
Proof. pose proof sizeofT_pos. nia. Qed.

Lemma wrap_bytes cap : cap * sizeofT ≤ PTRDIFF_MAX → wrap (cap * sizeofT) = cap * sizeofT.
Proof. intros Hc. apply wrap_small. unfold PTRDIFF_MAX, SIZE_MOD in *. lia. Qed.

Lemma slots_in_bytes cap : cap * sizeofT / sizeofT = cap.
Proof. apply N.div_mul. pose proof sizeofT_pos. lia. Qed.

(** ** The monad *)

Lemma bind_Ok {A B} (m : M T A) (k : A → M T B) s a s' :
  m s = Ok a s' → bind m k s = k a s'.
Proof. unfold bind. by intros ->. Qed.

Lemma bind_Throw {A B} (m : M T A) (k : A → M T B) s e s' :
  m s = Throw e s' → bind m k s = Throw e s'.
Proof. unfold bind. by intros ->. Qed.

Lemma bind_inv_Ok {A B} (m : M T A) (k : A → M T B) s b s2 :
  bind m k s = Ok b s2 → ∃ a s1, m s = Ok a s1 ∧ k a s1 = Ok b s2.
Proof. unfold bind. destruct (m s); [eauto | done | done]. Qed.

(** ** The allocator hands out fresh addresses *)

Lemma heap_top_above h p b : h !! p = Some b → p < heap_top h.
Proof.
  unfold heap_top. revert p b.
  apply (map_fold_weak_ind (λ acc m, ∀ p b, m !! p = Some b → p < acc)).
  - intros p b. by rewrite lookup_empty.
  - intros i x m acc Hi IH p b. rewrite lookup_insert. case_decide as Hp.
    + intros [= <-]. subst. lia.
    + intros Hl. specialize (IH _ _ Hl). lia.
Qed.

Lemma heap_top_fresh h : h !! heap_top h = None.
Proof.
  destruct (h !! heap_top h) as [b|] eqn:E; [| done].
  apply heap_top_above in E. lia.
Qed.

(** ** Primitive steps on a known state *)

Lemma insert_middle {A} (pre suf : list A) (x y : A) :
  <[length pre := x]> (pre ++ y :: suf) = pre ++ x :: suf.
Proof. rewrite insert_app_r_alt by done. by rewrite Nat.sub_diag. Qed.

Lemma load_eq s this q : objs s !! this = Some q → load this s = Ok q s.
Proof. unfold load. by intros ->. Qed.

Lemma load_slot_eq s p i b x :
  heap s !! p = Some b → blk_slots b !! N.to_nat i = Some x → load_slot p i s = Ok x s.
Proof. unfold load_slot. by intros -> ->. Qed.

Lemma store_slot_eq s p i b x :
  heap s !! p = Some b → (N.to_nat i < length (blk_slots b))%nat →
  store_slot p i x s
  = Ok tt (State (<[p := Block (blk_bytes b) (<[N.to_nat i := x]> (blk_slots b))]> (heap s)) (objs s)).
Proof. unfold store_slot. intros -> Hi. by rewrite decide_True. Qed.

Lemma read_eq s p i b v :
  heap s !! p = Some b → blk_slots b !! N.to_nat i = Some (Live v) → read p i s = Ok v s.
Proof. intros Hb Hi. unfold read. by erewrite bind_Ok by (by eapply load_slot_eq). Qed.

Lemma destroy_at_eq s p i b v :
  heap s !! p = Some b → blk_slots b !! N.to_nat i = Some (Live v) →
  destroy_at p i s
  = Ok tt (State (<[p := Block (blk_bytes b) (<[N.to_nat i := Uninit]> (blk_slots b))]> (heap s)) (objs s)).
Proof.
  intros Hb Hi. unfold destroy_at.
  erewrite bind_Ok by (by eapply load_slot_eq).
  apply store_slot_eq; [done |]. by eapply lookup_lt_Some.
Qed.

Lemma move_out_eq s p i b v :
  heap s !! p = Some b → blk_slots b !! N.to_nat i = Some (Live v) →
  move_out p i s
  = Ok v (State (<[p := Block (blk_bytes b) (<[N.to_nat i := Live (moved v)]> (blk_slots b))]> (heap s))
                (objs s)).
Proof.
  intros Hb Hi. unfold move_out.
  erewrite bind_Ok by (by eapply read_eq).
  erewrite bind_Ok; [done |].
  apply store_slot_eq; [done |]. by eapply lookup_lt_Some.
Qed.

Lemma state_insert_id s p b : heap s !! p = Some b → State (<[p := b]> (heap s)) (objs s) = s.
Proof. intros Hb. rewrite insert_id by done. by destruct s. Qed.

Ltac heap_eq :=
  apply map_eq; intros ?;
  repeat (rewrite lookup_insert || rewrite lookup_delete);
  repeat case_decide; simplify_eq; try done.

(** ** The loops *)

(** The loop of [Clear]: every live slot it visits ends as raw storage. *)
Lemma destroy_loop l : ∀ pre suf s this q b,
  objs s !! this = Some q →
  heap s !! m_Container q = Some (Block b (pre ++ (Live <$> l) ++ suf)) →
  for_range (N.of_nat (length pre)) (length l)
    (λ i, let* q := load this in destroy_at (m_Container q) i) s
  = Ok tt (State (<[m_Container q := Block b (pre ++ replicate (length l) Uninit ++ suf)]> (heap s))
                 (objs s)).
Proof.
  induction l as [|v l IH]; intros pre suf s this q b Hq Hb; simpl.
  - unfold ret. by rewrite state_insert_id.
  - erewrite bind_Ok; last first.
    { erewrite bind_Ok by (by apply load_eq).
      eapply destroy_at_eq; [done |]. simpl.
      rewrite Nat2N.id. by apply list_lookup_middle. }
    simpl. rewrite Nat2N.id, <- Nat2N.inj_succ.
    rewrite insert_middle.
    specialize (IH (pre ++ [Uninit]) suf).
    rewrite length_app, Nat.add_1_r in IH.
    erewrite IH; [| done |]; simpl.
    + rewrite insert_insert_eq. by rewrite <- !(assoc_L (++)).
    + rewrite lookup_insert_eq. by rewrite <- !(assoc_L (++)).
Qed.

(** The loop of [Pop]: each element moves one slot towards the front; the
    slot behind the last one is left holding a moved-from object. *)
Lemma shift_loop l : ∀ pre y suf s this q b,
  objs s !! this = Some q →
  heap s !! m_Container q = Some (Block b (pre ++ Live y :: (Live <$> l) ++ suf)) →
  N.of_nat (length pre + length l) < SIZE_MOD →
  ∃ y',
    for_range (N.of_nat (length pre)) (length l)
      (λ i, let* q := load this in
            destroy_at (m_Container q) i >>
            let* v := move_out (m_Container q) (wrap (i + 1)) in
            construct_at (m_Container q) i v) s
    = Ok tt (State (<[m_Container q := Block b (pre ++ (Live <$> l) ++ Live y' :: suf)]> (heap s))
                   (objs s)).
Proof.
  induction l as [|v l IH]; intros pre y suf s this q b Hq Hb Hlt; simpl.
  - exists y. unfold ret. by rewrite state_insert_id.
  - simpl in Hlt.
    assert (wrap (N.of_nat (length pre) + 1) = N.of_nat (S (length pre))) as Hw.
    { rewrite wrap_small by lia. lia. }
    set (s1 := State (<[m_Container q := Block b (pre ++ Uninit :: Live v :: (Live <$> l) ++ suf)]>
                        (heap s)) (objs s)).
    set (s2 := State (<[m_Container q := Block b (pre ++ Uninit :: Live (moved v) :: (Live <$> l) ++ suf)]>
                        (heap s)) (objs s)).
    set (s3 := State (<[m_Container q := Block b (pre ++ Live v :: Live (moved v) :: (Live <$> l) ++ suf)]>
                        (heap s)) (objs s)).
    destruct (IH (pre ++ [Live v]) (moved v) suf s3 this q b) as [y' Hloop].
    { done. }
    { simpl. rewrite lookup_insert_eq. by rewrite <- (assoc_L (++)). }
    { rewrite length_app. simpl. lia. }
    exists y'.
    erewrite bind_Ok; last first.
    { erewrite bind_Ok by (by apply load_eq).
      erewrite (bind_Ok _ _ s _ s1); last first.
      { erewrite destroy_at_eq; [| done |]; simpl.
        - rewrite Nat2N.id, insert_middle. done.
        - rewrite Nat2N.id. by apply list_lookup_middle. }
      erewrite (bind_Ok _ _ s1 v s2); last first.
      { rewrite Hw.
        erewrite (move_out_eq s1 _ _ (Block b ((pre ++ [Uninit]) ++ Live v :: (Live <$> l) ++ suf)) v).
        - simpl. rewrite insert_insert_eq, Nat2N.id.
          replace (S (length pre)) with (length (pre ++ [Uninit])) by (rewrite length_app; simpl; lia).
          rewrite insert_middle. by rewrite <- (assoc_L (++)).
        - simpl. rewrite lookup_insert_eq. by rewrite <- (assoc_L (++)).
        - simpl. rewrite Nat2N.id.
          apply list_lookup_middle. rewrite length_app. simpl. lia. }
      unfold construct_at.
      erewrite (store_slot_eq s2 _ _ (Block b (pre ++ Uninit :: Live (moved v) :: (Live <$> l) ++ suf))).
      - simpl. rewrite insert_insert_eq, Nat2N.id, insert_middle. done.
      - simpl. by rewrite lookup_insert_eq.
      - simpl. rewrite Nat2N.id, length_app. simpl. lia. }
    fold s3. rewrite <- Nat2N.inj_succ.
    replace (S (length pre)) with (length (pre ++ [Live v])) by (rewrite length_app; simpl; lia).
    rewrite Hloop. subst s3. simpl.
    rewrite insert_insert_eq. by rewrite <- !(assoc_L (++)).
Qed.

(** The loop of [Reallocate]: the elements move to the new buffer, in
    order, and their old slots become raw storage again. *)
Lemma move_loop l : ∀ pre pre' suf suf' s this q b b' p',
  objs s !! this = Some q →
  p' ≠ m_Container q →
  heap s !! m_Container q = Some (Block b (pre ++ (Live <$> l) ++ suf)) →
  heap s !! p' = Some (Block b' (pre' ++ replicate (length l) Uninit ++ suf')) →
  length pre' = length pre →
  for_range (N.of_nat (length pre)) (length l)
    (λ i, let* q := load this in
          let* v := move_out (m_Container q) i in
          construct_at p' i v >>
          destroy_at (m_Container q) i) s
  = Ok tt (State (<[p' := Block b' (pre' ++ (Live <$> l) ++ suf')]>
                    (<[m_Container q := Block b (pre ++ replicate (length l) Uninit ++ suf)]> (heap s)))
                 (objs s)).
Proof.
  induction l as [|v l IH]; intros pre pre' suf suf' s this q b b' p' Hq Hne Hb Hb' Hlen; simpl.
  - unfold ret. rewrite (insert_id (heap s) (m_Container q)) by done. by rewrite state_insert_id.
  - set (h1 := <[m_Container q := Block b (pre ++ Live (moved v) :: (Live <$> l) ++ suf)]> (heap s)).
    set (h2 := <[p' := Block b' (pre' ++ Live v :: replicate (length l) Uninit ++ suf')]> h1).
    set (h3 := <[m_Container q := Block b (pre ++ Uninit :: (Live <$> l) ++ suf)]> h2).
    erewrite (bind_Ok _ _ s tt (State h3 (objs s))); last first.
    { erewrite bind_Ok by (by apply load_eq).
      erewrite (bind_Ok _ _ s v (State h1 (objs s))); last first.
      { erewrite (move_out_eq s _ _ (Block b (pre ++ Live v :: (Live <$> l) ++ suf)) v); [| done |].
        - simpl. by rewrite Nat2N.id, insert_middle.
        - simpl. rewrite Nat2N.id. by apply list_lookup_middle. }
      erewrite (bind_Ok _ _ _ tt (State h2 (objs s))); last first.
      { unfold construct_at.
        erewrite (store_slot_eq _ _ _ (Block b' (pre' ++ Uninit :: replicate (length l) Uninit ++ suf'))).
        - simpl. by rewrite Nat2N.id, <- Hlen, insert_middle.
        - simpl. unfold h1. by rewrite lookup_insert_ne.
        - simpl. rewrite Nat2N.id, length_app. simpl. lia. }
      erewrite (destroy_at_eq _ _ _ (Block b (pre ++ Live (moved v) :: (Live <$> l) ++ suf)) (moved v)).
      - simpl. by rewrite Nat2N.id, insert_middle.
      - simpl. unfold h2, h1. rewrite lookup_insert_ne by done. by rewrite lookup_insert_eq.
      - simpl. rewrite Nat2N.id. by apply list_lookup_middle. }
    rewrite <- Nat2N.inj_succ.
    replace (S (length pre)) with (length (pre ++ [Uninit])) by (rewrite length_app; simpl; lia).
    erewrite (IH (pre ++ [Uninit]) (pre' ++ [Live v]) suf suf' (State h3 (objs s)) this q b b' p');
      [| done | done | | |].
    + simpl. f_equal. f_equal.
      rewrite <- !(assoc_L (++)). simpl. unfold h3, h2, h1. heap_eq.
    + simpl. unfold h3. rewrite lookup_insert_eq. by rewrite <- (assoc_L (++)).
    + simpl. unfold h3, h2. rewrite lookup_insert_ne by done. rewrite lookup_insert_eq.
      by rewrite <- (assoc_L (++)).
    + rewrite !length_app. simpl. lia.
Qed.

(** The loop of the copy constructor and of copy assignment: the elements
    of [other] are copied, in order, into the buffer of [this]. *)
Lemma copy_loop l : ∀ pre pre' suf suf' s this other q o b b',
  objs s !! this = Some q →
  objs s !! other = Some o →
  m_Container q ≠ m_Container o →
  heap s !! m_Container o = Some (Block b' (pre' ++ (Live <$> l) ++ suf')) →
  heap s !! m_Container q = Some (Block b (pre ++ replicate (length l) Uninit ++ suf)) →
  length pre' = length pre →
  for_range (N.of_nat (length pre)) (length l)
    (λ i, let* q := load this in
          let* o := load other in
          let* v := read (m_Container o) i in
          construct_at (m_Container q) i v) s
  = Ok tt (State (<[m_Container q := Block b (pre ++ (Live <$> l) ++ suf)]> (heap s)) (objs s)).
Proof.
  induction l as [|v l IH]; intros pre pre' suf suf' s this other q o b b' Hq Ho Hne Hb' Hb Hlen; simpl.
  - unfold ret. by rewrite state_insert_id.
  - set (h1 := <[m_Container q := Block b (pre ++ Live v :: replicate (length l) Uninit ++ suf)]> (heap s)).
    erewrite (bind_Ok _ _ s tt (State h1 (objs s))); last first.
    { erewrite bind_Ok by (by apply load_eq).
      erewrite bind_Ok by (by apply load_eq).
      erewrite (bind_Ok _ _ s v s); last first.
      { eapply read_eq; [done |]. simpl. rewrite Nat2N.id, <- Hlen. by apply list_lookup_middle. }
      unfold construct_at.
      erewrite (store_slot_eq _ _ _ (Block b (pre ++ Uninit :: replicate (length l) Uninit ++ suf)));
        [| done |].
      - simpl. by rewrite Nat2N.id, insert_middle.
      - simpl. rewrite Nat2N.id, length_app. simpl. lia. }
    rewrite <- Nat2N.inj_succ.
    replace (S (length pre)) with (length (pre ++ [Live v])) by (rewrite length_app; simpl; lia).
    erewrite (IH (pre ++ [Live v]) (pre' ++ [Live v]) suf suf' (State h1 (objs s)) this other q o b b');
      [| done | done | done | | |].
    + simpl. unfold h1. rewrite insert_insert_eq. by rewrite <- !(assoc_L (++)).
    + simpl. unfold h1. rewrite lookup_insert_ne by done. by rewrite <- (assoc_L (++)).
    + simpl. unfold h1. rewrite lookup_insert_eq. by rewrite <- (assoc_L (++)).
    + rewrite !length_app. simpl. lia.
Qed.

(** ** Steps on queue objects and on the allocator *)

Lemma store_eq s this q : store this q s = Ok tt (State (heap s) (<[this := q]> (objs s))).
Proof. done. Qed.

Lemma set_m_Size_eq s this q n :
  objs s !! this = Some q →
  set_m_Size this n s
  = Ok tt (State (heap s) (<[this := MkQueue (m_Container q) n (m_Capacity q)]> (objs s))).
Proof. intros Hq. unfold set_m_Size. by erewrite bind_Ok by (by apply load_eq). Qed.

Lemma set_m_Container_eq s this q p :
  objs s !! this = Some q →
  set_m_Container this p s
  = Ok tt (State (heap s) (<[this := MkQueue p (m_Size q) (m_Capacity q)]> (objs s))).
Proof. intros Hq. unfold set_m_Container. by erewrite bind_Ok by (by apply load_eq). Qed.

Lemma set_m_Capacity_eq s this q n :
  objs s !! this = Some q →
  set_m_Capacity this n s
  = Ok tt (State (heap s) (<[this := MkQueue (m_Container q) (m_Size q) n]> (objs s))).
Proof. intros Hq. unfold set_m_Capacity. by erewrite bind_Ok by (by apply load_eq). Qed.

Lemma operator_new_eq s bytes :
  bytes ≤ PTRDIFF_MAX →
  operator_new bytes s
  = Ok (heap_top (heap s))
       (State (<[heap_top (heap s) := Block bytes (replicate (N.to_nat (bytes / sizeofT)) Uninit)]> (heap s))
              (objs s)).
Proof.
  intros Hb. unfold operator_new.
  destruct (PTRDIFF_MAX <? bytes) eqn:E; [| done].
  apply N.ltb_lt in E. lia.
Qed.

Lemma operator_new_throw s bytes :
  PTRDIFF_MAX < bytes → operator_new bytes s = Throw bad_alloc s.
Proof. intros Hb. unfold operator_new. apply N.ltb_lt in Hb. by rewrite Hb. Qed.

Lemma operator_delete_eq s p b :
  heap s !! p = Some b → operator_delete p (blk_bytes b) s = Ok tt (release s p).
Proof. intros Hb. unfold operator_delete. by rewrite Hb, N.eqb_refl. Qed.

(** ** Shapes of a buffer *)

Lemma slots_of_nil cap : slots_of cap ([] : list T) = replicate (N.to_nat cap) Uninit.
Proof. unfold slots_of. simpl. by rewrite Nat.sub_0_r. Qed.

Lemma slots_of_cleared cap n :
  (n ≤ N.to_nat cap)%nat →
  replicate n Uninit ++ replicate (N.to_nat cap - n) Uninit = slots_of cap ([] : list T).
Proof.
  intros Hn. rewrite slots_of_nil, <- replicate_add. f_equal. lia.
Qed.

Lemma slots_of_room cap l :
  N.of_nat (length l) < cap →
  slots_of cap l = (Live <$> l) ++ Uninit :: replicate (N.to_nat cap - S (length l)) Uninit.
Proof.
  intros Hl. unfold slots_of. f_equal.
  replace (N.to_nat cap - length l)%nat with (S (N.to_nat cap - S (length l))) by lia.
  done.
Qed.

Lemma slots_of_snoc cap l v :
  slots_of cap (l ++ [v]) = (Live <$> l) ++ Live v :: replicate (N.to_nat cap - S (length l)) Uninit.
Proof.
  unfold slots_of. rewrite fmap_app, length_app, <- (assoc_L (++)). simpl.
  by rewrite Nat.add_1_r.
Qed.

Lemma length_slots_of cap l :
  N.of_nat (length l) ≤ cap → length (slots_of cap l) = N.to_nat cap.
Proof.
  intros Hl. unfold slots_of. rewrite length_app, length_fmap, length_replicate. lia.
Qed.

(** ** What each member function does to a well-formed queue *)

Lemma holds_install s this p cap l :
  N.of_nat (length l) ≤ cap → 0 < cap → cap * sizeofT ≤ PTRDIFF_MAX →
  holds (install s this p cap l) this p cap l.
Proof.
  intros ???. unfold holds, install. simpl. by rewrite !lookup_insert_eq.
Qed.

(** A queue that is neither the object nor the buffer being written is
    left as it was. *)
Lemma install_frame s this p cap l that p' cap' l' :
  holds s that p' cap' l' → that ≠ this → p' ≠ p →
  holds (install s this p cap l) that p' cap' l'.
Proof.
  intros (Hq & Hb & ?) ??. unfold holds, install. simpl.
  by rewrite !lookup_insert_ne.
Qed.

Lemma release_frame s p that p' cap' l' :
  holds s that p' cap' l' → p' ≠ p → holds (release s p) that p' cap' l'.
Proof.
  intros (Hq & Hb & ?) ?. unfold holds, release. simpl.
  by rewrite lookup_delete_ne.
Qed.

Lemma Queue_default_spec s this :
  Queue_default this s = Ok tt (install s this (heap_top (heap s)) 1 []).
Proof.
  unfold Queue_default, INITIAL_CAPACITY.
  pose proof sizeofT_max as Hmax.
  assert (1 * sizeofT ≤ PTRDIFF_MAX) as H1 by lia.
  rewrite (wrap_bytes 1 H1).
  erewrite bind_Ok by (by apply operator_new_eq).
  rewrite store_eq. unfold install. simpl.
  by rewrite slots_in_bytes, slots_of_nil.
Qed.

Lemma Clear_spec s this p cap l :
  holds s this p cap l → Clear this s = Ok tt (install s this p cap []).
Proof.
  intros (Hq & Hb & Hl & Hc & Hm). unfold Clear.
  erewrite bind_Ok by (by apply load_eq). simpl. rewrite Nat2N.id.
  erewrite bind_Ok; last first.
  { eapply (destroy_loop l [] _ s this _ (cap * sizeofT)); [done |]. simpl. exact Hb. }
  simpl. erewrite set_m_Size_eq by done. unfold install. simpl.
  rewrite slots_of_cleared by lia. done.
Qed.

Lemma Pop_spec s this p cap x l :
  holds s this p cap (x :: l) → Pop this s = Ok tt (install s this p cap l).
Proof.
  intros (Hq & Hb & Hl & Hc & Hm). unfold Pop.
  pose proof (bytes_bound _ Hm) as Hcap.
  assert (N.of_nat (length (x :: l)) < SIZE_MOD) as Hsz
    by (unfold PTRDIFF_MAX, SIZE_MOD in *; lia).
  erewrite bind_Ok by (by apply load_eq). cbn [m_Size].
  destruct (N.of_nat (length (x :: l)) =? 0) eqn:E.
  { apply N.eqb_eq in E. simpl in E. lia. }
  rewrite wrap_sub_small by (simpl in *; lia).
  replace (N.of_nat (length (x :: l)) - 1) with (N.of_nat (length l)) by (simpl; lia).
  erewrite bind_Ok by (by eapply set_m_Size_eq). cbn [m_Container m_Capacity].
  set (q' := MkQueue p (N.of_nat (length l)) cap).
  set (s1 := State (heap s) (<[this := q']> (objs s))).
  assert (objs s1 !! this = Some q') as Hq1 by (simpl; by rewrite lookup_insert_eq).
  erewrite bind_Ok by (by apply load_eq). cbn [m_Size q']. rewrite Nat2N.id.
  destruct (shift_loop l [] x (replicate (N.to_nat cap - S (length l)) Uninit) s1 this q'
              (cap * sizeofT)) as [y' Hloop]; [done | exact Hb | simpl in *; lia |].
  erewrite bind_Ok by exact Hloop. cbn [m_Container q' app].
  set (s2 := State _ _).
  assert (objs s2 !! this = Some q') as Hq2 by done.
  erewrite bind_Ok by (by apply load_eq). cbn [m_Size m_Container q'].
  erewrite (destroy_at_eq s2 _ _ (Block (cap * sizeofT) _) y').
  - unfold install, s2, s1. cbn [heap objs blk_bytes blk_slots].
    rewrite insert_insert_eq, Nat2N.id.
    rewrite <- (length_fmap Live l), insert_middle, length_fmap.
    rewrite slots_of_room by (simpl in *; lia). done.
  - unfold s2. cbn [heap]. by rewrite lookup_insert_eq.
  - cbn [blk_slots]. rewrite Nat2N.id. apply list_lookup_middle. by rewrite length_fmap.
Qed.

Lemma Reallocate_spec s this p cap l n :
  holds s this p cap l → cap < n → n * sizeofT ≤ PTRDIFF_MAX →
  Reallocate this n s = Ok tt (install (release s p) this (heap_top (heap s)) n l).
Proof.
  intros (Hq & Hb & Hl & Hc & Hm) Hn Hnm. unfold Reallocate.
  erewrite bind_Ok by (by apply load_eq). cbn [m_Capacity m_Size m_Container].
  destruct (n <=? cap) eqn:E; [apply N.leb_le in E; lia | clear E].
  rewrite (wrap_bytes n Hnm).
  erewrite bind_Ok by (by apply operator_new_eq). rewrite slots_in_bytes.
  set (p' := heap_top (heap s)).
  assert (p' ≠ p) as Hne.
  { intros Heq. pose proof (heap_top_fresh (heap s)) as Hf. fold p' in Hf. congruence. }
  set (s1 := State _ _).
  rewrite Nat2N.id.
  erewrite bind_Ok; last first.
  { eapply (move_loop l [] [] (replicate (N.to_nat cap - length l) Uninit)
              (replicate (N.to_nat n - length l) Uninit) s1 this
              (MkQueue p (N.of_nat (length l)) cap) (cap * sizeofT) (n * sizeofT) p');
      [done | done | | | done].
    - unfold s1. cbn [heap m_Container]. rewrite lookup_insert_ne by done. exact Hb.
    - unfold s1. cbn [heap app]. rewrite lookup_insert_eq, <- replicate_add.
      do 3 f_equal. lia. }
  cbn [m_Container app].
  set (s2 := State _ _).
  assert (objs s2 !! this = Some (MkQueue p (N.of_nat (length l)) cap)) as Hq2 by done.
  erewrite bind_Ok by (by apply load_eq). cbn [m_Capacity m_Container].
  rewrite (wrap_bytes cap Hm).
  erewrite bind_Ok; last first.
  { apply (operator_delete_eq s2 p
             (Block (cap * sizeofT)
                    (replicate (length l) Uninit ++ replicate (N.to_nat cap - length l) Uninit))).
    unfold s2. cbn [heap]. rewrite lookup_insert_ne by done. by rewrite lookup_insert_eq. }
  erewrite bind_Ok by (by eapply set_m_Container_eq).
  erewrite set_m_Capacity_eq by (cbn [objs release]; by rewrite lookup_insert_eq).
  unfold install, release, s2, s1. cbn [heap objs m_Size m_Capacity m_Container].
  rewrite (insert_insert_eq (objs s)). do 2 f_equal. heap_eq.
Qed.

Lemma Reallocate_bad_alloc s this q n :
  objs s !! this = Some q → m_Capacity q < n → n * sizeofT < SIZE_MOD → PTRDIFF_MAX < n * sizeofT →
  Reallocate this n s = Throw bad_alloc s.
Proof.
  intros Hq Hn Hw Hnm. unfold Reallocate.
  erewrite bind_Ok by (by apply load_eq).
  destruct (n <=? m_Capacity q) eqn:E; [apply N.leb_le in E; lia | clear E].
  rewrite wrap_small by done.
  by erewrite bind_Throw by (by apply operator_new_throw).
Qed.

(** ** What a reference designates *)

Lemma deref_eq s r v : designates s r v → deref r s = Ok v s.
Proof.
  destruct r as [w|p i]; simpl.
  - by intros ->.
  - intros (b & Hb & Hi). by eapply read_eq.
Qed.

(** A reference that does not point into the buffer a write goes to, or a
    release frees, designates what it did. *)
Lemma designates_install s this p cap l r v :
  designates s r v → (∀ i, r ≠ Inside p i) →
  designates (install s this p cap l) r v.
Proof.
  destruct r as [w|p2 i]; simpl; [done |].
  intros (b & Hb & Hi) Hne. exists b. split; [| done].
  rewrite lookup_insert_ne; [done |]. intros <-. by eapply Hne.
Qed.

Lemma designates_release s p r v :
  designates s r v → (∀ i, r ≠ Inside p i) → designates (release s p) r v.
Proof.
  destruct r as [w|p2 i]; simpl; [done |].
  intros (b & Hb & Hi) Hne. exists b. split; [| done].
  rewrite lookup_delete_ne; [done |]. intros <-. by eapply Hne.
Qed.

Lemma designates_allocated s p i v :
  designates s (Inside p i) v → p ≠ heap_top (heap s).
Proof.
  intros (b & Hb & _) ->. by rewrite heap_top_fresh in Hb.
Qed.

(** The tail of [Push(const ValueType&)]: read the argument, construct in
    slot [m_Size], then [++m_Size]. *)
Lemma Push_tail s this p cap l value v :
  holds s this p cap l → N.of_nat (length l) < cap → designates s value v →
  (let* q := load this in
   let* v := deref value in
   construct_at (m_Container q) (m_Size q) v >>
   set_m_Size this (wrap (m_Size q + 1))) s
  = Ok tt (install s this p cap (l ++ [v])).
Proof.
  intros (Hq & Hb & Hl & Hc & Hm) Hlt Hv.
  pose proof (bytes_bound _ Hm) as Hcap.
  erewrite bind_Ok by (by apply load_eq). cbn [m_Size m_Container].
  erewrite bind_Ok by (by apply deref_eq).
  unfold construct_at.
  erewrite bind_Ok by (eapply store_slot_eq; [exact Hb | cbn [blk_slots]; rewrite length_slots_of; lia]).
  erewrite set_m_Size_eq by done.
  unfold install. cbn [heap objs blk_bytes blk_slots m_Container m_Capacity].
  rewrite wrap_small by (unfold PTRDIFF_MAX, SIZE_MOD in *; lia).
  rewrite Nat2N.id, slots_of_room, slots_of_snoc by done.
  rewrite <- (length_fmap Live l) at 1. rewrite insert_middle.
  rewrite length_app. simpl.
  by replace (N.of_nat (length l + 1)) with (N.of_nat (length l) + 1) by lia.
Qed.

(** With room, [Push] constructs a copy of whatever live object its
    argument designates, an element of the queue itself included. *)
Lemma Push_ref_room s this p cap l value v :
  holds s this p cap l → N.of_nat (length l) < cap → designates s value v →
  Push this value s = Ok tt (install s this p cap (l ++ [v])).
Proof.
  intros Hh Hlt Hv. pose proof Hh as (Hq & _). unfold Push.
  erewrite bind_Ok by (by apply load_eq). cbn [m_Size m_Capacity].
  destruct (cap <=? N.of_nat (length l)) eqn:E; [apply N.leb_le in E; lia | clear E].
  erewrite (bind_Ok _ _ s tt s) by done.
  by apply Push_tail.
Qed.

Lemma grown_holds s this p cap l :
  holds s this p cap l → 2 * cap * sizeofT ≤ PTRDIFF_MAX →
  holds (install (release s p) this (heap_top (heap s)) (2 * cap) l)
        this (heap_top (heap s)) (2 * cap) l.
Proof.
  intros (Hq & Hb & Hl & Hc & Hm) Hg. apply holds_install; lia.
Qed.

Lemma Push_grows s this p cap l :
  holds s this p cap l → N.of_nat (length l) = cap → 2 * cap * sizeofT ≤ PTRDIFF_MAX →
  ((if m_Capacity (MkQueue p (N.of_nat (length l)) cap)
        <=? m_Size (MkQueue p (N.of_nat (length l)) cap)
    then Reallocate this (wrap (m_Capacity (MkQueue p (N.of_nat (length l)) cap) * 2))
    else ret tt) : M T unit) s
  = Ok tt (install (release s p) this (heap_top (heap s)) (2 * cap) l).
Proof.
  intros Hh Heq Hg. pose proof Hh as (Hq & Hb & Hl & Hc & Hm).
  pose proof sizeofT_pos as Hpos. cbn [m_Size m_Capacity].
  destruct (cap <=? N.of_nat (length l)) eqn:E; [clear E | apply N.leb_gt in E; lia].
  assert (wrap (cap * 2) = 2 * cap) as ->.
  { rewrite wrap_small; [lia |]. unfold PTRDIFF_MAX, SIZE_MOD in *. nia. }
  apply (Reallocate_spec s this p cap l); [done | lia | lia].
Qed.

(** On a full queue, [Push] of an object that is not in the queue's own
    buffer. *)
Lemma Push_ref_grow s this p cap l value v :
  holds s this p cap l → N.of_nat (length l) = cap → 2 * cap * sizeofT ≤ PTRDIFF_MAX →
  designates s value v → (∀ i, value ≠ Inside p i) →
  Push this value s
  = Ok tt (install (release s p) this (heap_top (heap s)) (2 * cap) (l ++ [v])).
Proof.
  intros Hh Heq Hg Hv Hout. pose proof Hh as (Hq & Hb & Hl & Hc & Hm). unfold Push.
  erewrite bind_Ok by (by apply load_eq).
  erewrite bind_Ok by (by apply Push_grows).
  erewrite Push_tail; [| by apply grown_holds | lia |].
  - unfold install, release. cbn [heap objs]. by rewrite !insert_insert_eq.
  - apply designates_install; [by apply designates_release |].
    intros i ->. by eapply designates_allocated.
Qed.

(** On a full queue, [Push] of an element of the queue itself: by the time
    the argument is read, [Reallocate] has destroyed the element and
    released the buffer it was in. *)
Lemma Push_ref_dangling s this p cap l i :
  holds s this p cap l → N.of_nat (length l) = cap → 2 * cap * sizeofT ≤ PTRDIFF_MAX →
  Push this (Inside p i) s = UB ∧ Push_move this (Inside p i) s = UB.
Proof.
  intros Hh Heq Hg. pose proof Hh as (Hq & Hb & Hl & Hc & Hm).
  assert (heap_top (heap s) ≠ p) as Hne.
  { intros Hp. pose proof (heap_top_fresh (heap s)) as Hf. congruence. }
  assert (load_slot p i (install (release s p) this (heap_top (heap s)) (2 * cap) l) = UB)
    as Hgone.
  { unfold load_slot, install, release. cbn [heap].
    rewrite lookup_insert_ne by done. by rewrite lookup_delete_eq. }
  split.
  - unfold Push.
    erewrite bind_Ok by (by apply load_eq).
    erewrite bind_Ok by (by apply Push_grows).
    erewrite bind_Ok
      by (apply load_eq; unfold install; cbn [objs]; by rewrite lookup_insert_eq).
    unfold deref, read. unfold bind at 1 2. by rewrite Hgone.
  - unfold Push_move.
    erewrite bind_Ok by (by apply load_eq).
    erewrite bind_Ok by (by apply Push_grows).
    erewrite bind_Ok
      by (apply load_eq; unfold install; cbn [objs]; by rewrite lookup_insert_eq).
    unfold take, move_out, read. unfold bind at 1 2 3. by rewrite Hgone.
Qed.

Lemma Push_room s this p cap l v :
  holds s this p cap l → N.of_nat (length l) < cap →
  Push this (Outside v) s = Ok tt (install s this p cap (l ++ [v])).
Proof. intros Hh Hlt. by apply Push_ref_room. Qed.

Lemma Push_grow s this p cap l v :
  holds s this p cap l → N.of_nat (length l) = cap → 2 * cap * sizeofT ≤ PTRDIFF_MAX →
  Push this (Outside v) s
  = Ok tt (install (release s p) this (heap_top (heap s)) (2 * cap) (l ++ [v])).
Proof. intros Hh Heq Hg. by apply Push_ref_grow. Qed.

Lemma Push_bad_alloc s this p cap l value :
  holds s this p cap l → N.of_nat (length l) = cap → PTRDIFF_MAX < 2 * cap * sizeofT →
  Push this value s = Throw bad_alloc s ∧ Push_move this value s = Throw bad_alloc s.
Proof.
  intros Hh Heq Hg. pose proof Hh as (Hq & Hb & Hl & Hc & Hm).
  pose proof (bytes_bound _ Hm) as Hcap.
  assert (Reallocate this (2 * cap) s = Throw bad_alloc s) as HR.
  { eapply Reallocate_bad_alloc; [done | cbn [m_Capacity]; lia | | lia].
    unfold PTRDIFF_MAX, SIZE_MOD in *. lia. }
  assert (wrap (cap * 2) = 2 * cap) as Hw.
  { rewrite wrap_small; [lia |]. unfold PTRDIFF_MAX, SIZE_MOD in *. lia. }
  split.
  - unfold Push. erewrite bind_Ok by (by apply load_eq). cbn [m_Size m_Capacity].
    destruct (cap <=? N.of_nat (length l)) eqn:E; [clear E | apply N.leb_gt in E; lia].
    rewrite Hw. by erewrite bind_Throw.
  - unfold Push_move. erewrite bind_Ok by (by apply load_eq). cbn [m_Size m_Capacity].
    destruct (cap <=? N.of_nat (length l)) eqn:E; [clear E | apply N.leb_gt in E; lia].
    rewrite Hw. by erewrite bind_Throw.
Qed.

(** For an object of the caller's own the two overloads leave the same
    state. *)
Lemma Push_move_Push s this v :
  Push_move this (Outside v) s
  = match Push this (Outside v) s with
    | Ok _ s' => Ok (Outside (moved v)) s'
    | Throw e s' => Throw e s'
    | UB => UB
    end.
Proof.
  unfold Push_move, Push, take, deref, after_move, bind, ret.
  destruct (load this s) as [q s1| |]; [| done..].
  destruct (m_Capacity q <=? m_Size q).
  - destruct (Reallocate this (wrap (m_Capacity q * 2)) s1) as [[] s2| |]; [| done..].
    destruct (load this s2) as [q2 s3| |]; [| done..].
    destruct (construct_at (m_Container q2) (m_Size q2) v s3) as [[] s4| |]; [| done..].
    by destruct (set_m_Size this (wrap (m_Size q2 + 1)) s4) as [[] s5| |].
  - destruct (load this s1) as [q2 s3| |]; [| done..].
    destruct (construct_at (m_Container q2) (m_Size q2) v s3) as [[] s4| |]; [| done..].
    by destruct (set_m_Size this (wrap (m_Size q2 + 1)) s4) as [[] s5| |].
Qed.

Lemma Queue_copy_spec s this other p cap l :
  holds s other p cap l → this ≠ other →
  Queue_copy this other s = Ok tt (install s this (heap_top (heap s)) cap l).
Proof.
  intros (Hq & Hb & Hl & Hc & Hm) Hne. unfold Queue_copy.
  erewrite bind_Ok by (by apply load_eq). cbn [m_Capacity m_Size].
  rewrite (wrap_bytes cap Hm).
  erewrite bind_Ok by (by apply operator_new_eq). rewrite slots_in_bytes.
  set (p' := heap_top (heap s)).
  assert (p' ≠ p) as Hnp.
  { intros Heq. pose proof (heap_top_fresh (heap s)) as Hf. fold p' in Hf. congruence. }
  erewrite bind_Ok by apply store_eq. cbn [heap objs].
  set (s1 := State _ _). unfold copy_elements.
  assert (objs s1 !! this = Some (MkQueue p' (N.of_nat (length l)) cap)) as Hq1
    by (unfold s1; cbn [objs]; by rewrite lookup_insert_eq).
  erewrite bind_Ok by (by apply load_eq). cbn [m_Size]. rewrite Nat2N.id.
  etrans.
  { eapply (copy_loop l [] [] (replicate (N.to_nat cap - length l) Uninit)
              (replicate (N.to_nat cap - length l) Uninit) s1 this other
              _ (MkQueue p (N.of_nat (length l)) cap) (cap * sizeofT) (cap * sizeofT));
      [done | | done | | | done].
    - unfold s1. cbn [objs]. by rewrite lookup_insert_ne.
    - unfold s1. cbn [heap m_Container]. rewrite lookup_insert_ne by done. exact Hb.
    - unfold s1. cbn [heap m_Container app]. rewrite lookup_insert_eq, <- replicate_add.
      do 3 f_equal. lia. }
  unfold install, s1. cbn [heap objs m_Container app]. by rewrite insert_insert_eq.
Qed.

(** ** The observers on a well-formed queue *)

Lemma Size_spec s this p cap l :
  holds s this p cap l → Size this s = Ok (N.of_nat (length l)) s.
Proof. intros (Hq & _). unfold Size. by erewrite bind_Ok by (by apply load_eq). Qed.

Lemma Capacity_spec s this p cap l :
  holds s this p cap l → Capacity this s = Ok cap s.
Proof. intros (Hq & _). unfold Capacity. by erewrite bind_Ok by (by apply load_eq). Qed.

Lemma Empty_spec s this p cap l :
  holds s this p cap l → Empty this s = Ok (bool_decide (l = [])) s.
Proof.
  intros (Hq & _). unfold Empty. erewrite bind_Ok by (by apply load_eq).
  by destruct l.
Qed.

Lemma Front_spec s this p cap x l :
  holds s this p cap (x :: l) → Front this s = Ok x s.
Proof.
  intros (Hq & Hb & _). unfold Front. erewrite bind_Ok by (by apply load_eq).
  by eapply read_eq.
Qed.

Lemma Back_spec s this p cap l x :
  holds s this p cap (l ++ [x]) → Back this s = Ok x s.
Proof.
  intros (Hq & Hb & Hl & Hc & Hm). unfold Back.
  pose proof (bytes_bound _ Hm) as Hcap.
  erewrite bind_Ok by (by apply load_eq). cbn [m_Size m_Container].
  rewrite length_app in *. simpl in Hl.
  rewrite wrap_sub_small by (unfold PTRDIFF_MAX, SIZE_MOD in *; simpl; lia).
  eapply read_eq; [done |]. cbn [blk_slots].
  replace (N.to_nat (N.of_nat (length l + length [x]) - 1)) with (length l) by (simpl; lia).
  rewrite slots_of_snoc. apply list_lookup_middle. by rewrite length_fmap.
Qed.

Lemma Pop_empty s this q :
  objs s !! this = Some q → m_Size q = 0 → Pop this s = Ok tt s.
Proof.
  intros Hq Hz. unfold Pop. erewrite bind_Ok by (by apply load_eq). by rewrite Hz.
Qed.

Lemma Clear_empty s this q :
  objs s !! this = Some q → m_Size q = 0 → Clear this s = Ok tt s.
Proof.
  intros Hq Hz. unfold Clear. erewrite bind_Ok by (by apply load_eq). rewrite Hz. simpl.
  erewrite (bind_Ok _ _ s tt s) by done.
  erewrite set_m_Size_eq by done. rewrite <- Hz.
  destruct s as [h o], q as [p n c]. simpl in *. by rewrite insert_id.
Qed.

(** ** What a computation can do to the object store, and what it can throw *)

Lemma keeps_bind {A B} (m : M T A) (k : A → M T B) :
  keeps_objs T m → (∀ a, keeps_objs T (k a)) → keeps_objs T (bind m k).
Proof.
  intros Hm Hk s b s2 (a & s1 & H1 & H2)%bind_inv_Ok.
  rewrite (Hk _ _ _ _ H2). by eapply Hm.
Qed.

Lemma keeps_ret {A} (a : A) : keeps_objs T (ret a : M T A).
Proof. by intros s b s' [= _ ->]. Qed.

Lemma keeps_undefined {A} : keeps_objs T (undefined : M T A).
Proof. by intros s b s'. Qed.

Lemma keeps_load this : keeps_objs T (load this).
Proof. intros s q s'. unfold load. destruct (objs s !! this); [by intros [= _ ->] | done]. Qed.

Lemma keeps_load_slot p i : keeps_objs T (load_slot p i).
Proof.
  intros s x s'. unfold load_slot.
  destruct (heap s !! p) as [b|]; [| done].
  destruct (blk_slots b !! N.to_nat i); [by intros [= _ ->] | done].
Qed.

Lemma keeps_store_slot p i x : keeps_objs T (store_slot p i x).
Proof.
  intros s a s'. unfold store_slot.
  destruct (heap s !! p) as [b|]; [| done].
  case_decide; [by intros [= _ <-] | done].
Qed.

Lemma keeps_operator_new bytes : keeps_objs T (operator_new bytes).
Proof.
  intros s a s'. unfold operator_new.
  destruct (PTRDIFF_MAX <? bytes); [done | by intros [= _ <-]].
Qed.

Lemma keeps_operator_delete p bytes : keeps_objs T (operator_delete p bytes).
Proof.
  intros s a s'. unfold operator_delete.
  destruct (heap s !! p) as [b|]; [| done].
  destruct (blk_bytes b =? bytes); [by intros [= _ <-] | done].
Qed.

Lemma keeps_for_range body n : ∀ i,
  (∀ j, keeps_objs T (body j)) → keeps_objs T (for_range (T:=T) i n body).
Proof.
  induction n as [|n IH]; intros i Hbody; simpl.
  - apply keeps_ret.
  - apply keeps_bind; [done |]. intros _. by apply IH.
Qed.

Ltac keeps :=
  repeat first
    [ apply keeps_ret | apply keeps_undefined | apply keeps_load
    | apply keeps_load_slot | apply keeps_store_slot
    | apply keeps_operator_new | apply keeps_operator_delete
    | apply keeps_for_range; intros ?
    | apply keeps_bind; [| intros ?]
    | match goal with |- keeps_objs T (match ?x with _ => _ end) => destruct x end ].

Lemma keeps_read p i : keeps_objs T (read p i).
Proof. unfold read. keeps. Qed.

Lemma keeps_construct_at p i v : keeps_objs T (construct_at p i v).
Proof. unfold construct_at. keeps. Qed.

Lemma keeps_destroy_at p i : keeps_objs T (destroy_at p i).
Proof. unfold destroy_at. keeps. Qed.

Lemma keeps_move_out p i : keeps_objs T (move_out p i).
Proof. unfold move_out, read. keeps. Qed.

Lemma keeps_deref r : keeps_objs T (deref r).
Proof. destruct r; [apply keeps_ret | apply keeps_read]. Qed.

Lemma keeps_take r : keeps_objs T (take r).
Proof. destruct r; [apply keeps_ret | apply keeps_move_out]. Qed.

Lemma keeps_copy_elements this other : keeps_objs T (copy_elements this other).
Proof. unfold copy_elements, read, construct_at. keeps. Qed.

Lemma only_bind {A B} (m : M T A) (k : A → M T B) :
  throws_bad_alloc_only T m → (∀ a, throws_bad_alloc_only T (k a)) → throws_bad_alloc_only T (bind m k).
Proof.
  intros Hm Hk s e s2. unfold bind.
  destruct (m s) as [a s1|e1 s1|] eqn:E; [| | done].
  - apply Hk.
  - intros [= <- <-]. by eapply Hm.
Qed.

Lemma only_ret {A} (a : A) : throws_bad_alloc_only T (ret a : M T A).
Proof. by intros s e s'. Qed.

Lemma only_undefined {A} : throws_bad_alloc_only T (undefined : M T A).
Proof. by intros s e s'. Qed.

Lemma only_load this : throws_bad_alloc_only T (load this).
Proof. intros s e s'. unfold load. by destruct (objs s !! this). Qed.

Lemma only_store this q : throws_bad_alloc_only T (store this q).
Proof. by intros s e s'. Qed.

Lemma only_load_slot p i : throws_bad_alloc_only T (load_slot p i).
Proof.
  intros s e s'. unfold load_slot.
  destruct (heap s !! p) as [b|]; [| done]. by destruct (blk_slots b !! N.to_nat i).
Qed.

Lemma only_store_slot p i x : throws_bad_alloc_only T (store_slot p i x).
Proof.
  intros s e s'. unfold store_slot.
  destruct (heap s !! p) as [b|]; [| done]. by case_decide.
Qed.

Lemma only_operator_new bytes : throws_bad_alloc_only T (operator_new bytes).
Proof.
  intros s e s'. unfold operator_new.
  destruct (PTRDIFF_MAX <? bytes); [by intros [= <- _] | done].
Qed.

Lemma only_operator_delete p bytes : throws_bad_alloc_only T (operator_delete p bytes).
Proof.
  intros s e s'. unfold operator_delete.
  destruct (heap s !! p) as [b|]; [| done]. by destruct (blk_bytes b =? bytes).
Qed.

Lemma only_for_range body n : ∀ i,
  (∀ j, throws_bad_alloc_only T (body j)) → throws_bad_alloc_only T (for_range (T:=T) i n body).
Proof.
  induction n as [|n IH]; intros i Hbody; simpl.
  - apply only_ret.
  - apply only_bind; [done |]. intros _. by apply IH.
Qed.

Ltac only_bad_alloc :=
  repeat first
    [ apply only_ret | apply only_undefined | apply only_load | apply only_store
    | apply only_load_slot | apply only_store_slot
    | apply only_operator_new | apply only_operator_delete
    | apply only_for_range; intros ?
    | apply only_bind; [| intros ?]
    | match goal with |- throws_bad_alloc_only T (match ?x with _ => _ end) => destruct x end ].

Lemma bind_inv_Throw {A B} (m : M T A) (k : A → M T B) s e s2 :
  bind m k s = Throw e s2 →
  m s = Throw e s2 ∨ ∃ a s1, m s = Ok a s1 ∧ k a s1 = Throw e s2.
Proof.
  unfold bind. destruct (m s) as [a s1|e1 s1|]; [intros H; right; eauto | intros [= -> ->]; by left | done].
Qed.

Lemma quiet_bind {A B} (m : M T A) (k : A → M T B) :
  never_throws T m → (∀ a, never_throws T (k a)) → never_throws T (bind m k).
Proof.
  intros Hm Hk s e s2 [H | (a & s1 & _ & H)]%bind_inv_Throw.
  - by apply Hm in H.
  - by apply Hk in H.
Qed.

Lemma quiet_ret {A} (a : A) : never_throws T (ret a : M T A).
Proof. by intros s e s'. Qed.

Lemma quiet_undefined {A} : never_throws T (undefined : M T A).
Proof. by intros s e s'. Qed.

Lemma quiet_load this : never_throws T (load this).
Proof. intros s e s'. unfold load. by destruct (objs s !! this). Qed.

Lemma quiet_store this q : never_throws T (store this q).
Proof. by intros s e s'. Qed.

Lemma quiet_load_slot p i : never_throws T (load_slot p i).
Proof.
  intros s e s'. unfold load_slot.
  destruct (heap s !! p) as [b|]; [| done]. by destruct (blk_slots b !! N.to_nat i).
Qed.

Lemma quiet_store_slot p i x : never_throws T (store_slot p i x).
Proof.
  intros s e s'. unfold store_slot.
  destruct (heap s !! p) as [b|]; [| done]. by case_decide.
Qed.

Lemma quiet_operator_delete p bytes : never_throws T (operator_delete p bytes).
Proof.
  intros s e s'. unfold operator_delete.
  destruct (heap s !! p) as [b|]; [| done]. by destruct (blk_bytes b =? bytes).
Qed.

Lemma quiet_for_range body n : ∀ i,
  (∀ j, never_throws T (body j)) → never_throws T (for_range (T:=T) i n body).
Proof.
  induction n as [|n IH]; intros i Hbody; simpl.
  - apply quiet_ret.
  - apply quiet_bind; [done |]. intros _. by apply IH.
Qed.

Ltac quiet :=
  repeat first
    [ apply quiet_ret | apply quiet_undefined | apply quiet_load | apply quiet_store
    | apply quiet_load_slot | apply quiet_store_slot | apply quiet_operator_delete
    | apply quiet_for_range; intros ?
    | apply quiet_bind; [| intros ?]
    | match goal with |- never_throws T (match ?x with _ => _ end) => destruct x end ].

Lemma quiet_set_m_Container this p : never_throws T (set_m_Container this p).
Proof. unfold set_m_Container. quiet. Qed.

Lemma quiet_set_m_Size this n : never_throws T (set_m_Size this n).
Proof. unfold set_m_Size. quiet. Qed.

Lemma quiet_set_m_Capacity this n : never_throws T (set_m_Capacity this n).
Proof. unfold set_m_Capacity. quiet. Qed.

Lemma quiet_deref r : never_throws T (deref r).
Proof. destruct r; unfold deref, read; quiet. Qed.

Lemma quiet_take r : never_throws T (take r).
Proof. destruct r; unfold take, move_out, read; quiet. Qed.

Lemma quiet_copy_elements this other : never_throws T (copy_elements this other).
Proof. unfold copy_elements, read, construct_at. quiet. Qed.

Lemma quiet_Clear this : never_throws T (Clear this).
Proof. unfold Clear, set_m_Size, destroy_at. quiet. Qed.

Lemma quiet_Pop this : never_throws T (Pop this).
Proof. unfold Pop, set_m_Size, destroy_at, move_out, read, construct_at. quiet. Qed.

Lemma operator_new_Throw bytes s e s' : operator_new bytes s = Throw e s' → s' = s.
Proof.
  unfold operator_new. destruct (PTRDIFF_MAX <? bytes); [by intros [= _ <-] | done].
Qed.

(** ** The effect of each member function on the object store

    These hold of every state, well-formed or not: whenever the call
    returns, the members of [this] (and of [other]) are as stated. *)

Lemma load_inv s this q s' : load this s = Ok q s' → s' = s ∧ objs s !! this = Some q.
Proof. unfold load. destruct (objs s !! this); [by intros [= -> ->] | done]. Qed.

Lemma store_inv s this q a s' : store this q s = Ok a s' → objs s' = <[this := q]> (objs s).
Proof. by intros [= _ <-]. Qed.

Lemma set_m_Size_inv s this n a s' :
  set_m_Size this n s = Ok a s' →
  ∃ q, objs s !! this = Some q ∧ objs s' = <[this := MkQueue (m_Container q) n (m_Capacity q)]> (objs s).
Proof.
  intros (q & s1 & [-> Hq]%load_inv & Hs%store_inv)%bind_inv_Ok. eauto.
Qed.

Lemma set_m_Container_inv s this p a s' :
  set_m_Container this p s = Ok a s' →
  ∃ q, objs s !! this = Some q ∧ objs s' = <[this := MkQueue p (m_Size q) (m_Capacity q)]> (objs s).
Proof.
  intros (q & s1 & [-> Hq]%load_inv & Hs%store_inv)%bind_inv_Ok. eauto.
Qed.

Lemma set_m_Capacity_inv s this n a s' :
  set_m_Capacity this n s = Ok a s' →
  ∃ q, objs s !! this = Some q ∧ objs s' = <[this := MkQueue (m_Container q) (m_Size q) n]> (objs s).
Proof.
  intros (q & s1 & [-> Hq]%load_inv & Hs%store_inv)%bind_inv_Ok. eauto.
Qed.

Lemma wrap_sub_1_le a : a ≠ 0 → wrap_sub a 1 ≤ a.
Proof.
  intros Ha. destruct (decide (a < SIZE_MOD)).
  - rewrite wrap_sub_small by lia. lia.
  - pose proof (wrap_lt (a + (SIZE_MOD - wrap 1))). unfold wrap_sub. lia.
Qed.

Lemma Queue_default_objs s this s' :
  Queue_default this s = Ok tt s' → ∃ p, objs s' = <[this := MkQueue p 0 1]> (objs s).
Proof.
  intros (p & s1 & H1%keeps_operator_new & H2%store_inv)%bind_inv_Ok.
  exists p. by rewrite H2, H1.
Qed.

Lemma Clear_objs s this s' :
  Clear this s = Ok tt s' →
  ∃ q, objs s !! this = Some q ∧
       objs s' = <[this := MkQueue (m_Container q) 0 (m_Capacity q)]> (objs s).
Proof.
  intros (q & s1 & [-> Hq]%load_inv & (a & s2 & Hloop & Hset)%bind_inv_Ok)%bind_inv_Ok.
  apply keeps_for_range in Hloop; [| intros; unfold destroy_at; keeps].
  apply set_m_Size_inv in Hset as (q' & Hq' & ->).
  rewrite Hloop in *. simplify_eq. eauto.
Qed.

Lemma Pop_objs s this s' :
  Pop this s = Ok tt s' →
  ∃ q n, objs s !! this = Some q ∧ n ≤ m_Size q ∧
         objs s' = <[this := MkQueue (m_Container q) n (m_Capacity q)]> (objs s).
Proof.
  intros (q & s1 & [-> Hq]%load_inv & H)%bind_inv_Ok.
  destruct (m_Size q =? 0) eqn:E.
  - injection H as <-. exists q, (m_Size q). split_and!; [done | lia |].
    destruct q. by rewrite insert_id.
  - apply N.eqb_neq in E.
    apply bind_inv_Ok in H as (a & s1 & (q1 & Hq1 & Hs1)%set_m_Size_inv & H).
    apply bind_inv_Ok in H as (q2 & s2 & [-> Hq2]%load_inv & H).
    apply bind_inv_Ok in H as (a2 & s3 & Hloop & H).
    apply keeps_for_range in Hloop; [| intros; unfold destroy_at, move_out, read, construct_at; keeps].
    apply bind_inv_Ok in H as (q3 & s4 & [-> Hq3]%load_inv & H).
    apply keeps_destroy_at in H.
    rewrite Hq in Hq1. injection Hq1 as <-.
    exists q, (wrap_sub (m_Size q) 1).
    split_and!; [done | by apply wrap_sub_1_le |].
    by rewrite H, Hloop, Hs1.
Qed.

Lemma Reallocate_objs s this n s' :
  Reallocate this n s = Ok tt s' →
  ∃ q p', objs s !! this = Some q ∧ m_Capacity q < n ∧
          objs s' = <[this := MkQueue p' (m_Size q) n]> (objs s).
Proof.
  intros (q & s1 & [-> Hq]%load_inv & H)%bind_inv_Ok.
  destruct (n <=? m_Capacity q) eqn:E; [done |]. apply N.leb_gt in E.
  apply bind_inv_Ok in H as (p' & s1 & Hnew%keeps_operator_new & H).
  apply bind_inv_Ok in H as (a & s2 & Hloop & H).
  apply keeps_for_range in Hloop; [| intros; unfold destroy_at, move_out, read, construct_at; keeps].
  apply bind_inv_Ok in H as (q3 & s3 & [-> Hq3]%load_inv & H).
  apply bind_inv_Ok in H as (a3 & s4 & Hdel%keeps_operator_delete & H).
  apply bind_inv_Ok in H as (a4 & s5 & (q5 & Hq5 & Hs5)%set_m_Container_inv & H).
  apply set_m_Capacity_inv in H as (q6 & Hq6 & Hs6).
  rewrite Hs5, lookup_insert_eq in Hq6. simplify_eq.
  rewrite Hdel, Hloop, Hnew in *. simplify_eq.
  exists q, p'. split_and!; [done | done |].
  rewrite Hs6, Hs5. cbn [m_Container m_Size]. by rewrite insert_insert_eq.
Qed.

Lemma Push_objs s this value s' :
  Push this value s = Ok tt s' →
  ∃ q p' c', objs s !! this = Some q ∧ m_Capacity q ≤ c' ∧
             (m_Size q ≤ m_Capacity q → wrap (m_Size q + 1) ≤ c') ∧
             objs s' = <[this := MkQueue p' (wrap (m_Size q + 1)) c']> (objs s).
Proof.
  intros (q & s0 & [-> Hq]%load_inv & (a & s1 & Hgrow & H)%bind_inv_Ok)%bind_inv_Ok.
  apply bind_inv_Ok in H as (q2 & s2 & [-> Hq2]%load_inv & H).
  apply bind_inv_Ok in H as (v & s2 & Hv%keeps_deref & H).
  apply bind_inv_Ok in H as (a3 & s3 & Hcons%keeps_construct_at & H).
  apply set_m_Size_inv in H as (q4 & Hq4 & Hs4).
  rewrite Hcons, Hv, Hq2 in Hq4. injection Hq4 as <-.
  rewrite Hcons, Hv in Hs4.
  pose proof (wrap_le (m_Size q + 1)).
  destruct (m_Capacity q <=? m_Size q) eqn:E.
  - apply N.leb_le in E. destruct a.
    apply Reallocate_objs in Hgrow as (q' & p' & Hq' & Hlt & Hs1).
    rewrite Hq in Hq'. injection Hq' as <-.
    rewrite Hs1, lookup_insert_eq in Hq2. injection Hq2 as <-.
    exists q, p', (wrap (m_Capacity q * 2)). cbn [m_Size m_Capacity m_Container] in *.
    split_and!; [done | lia | lia |].
    by rewrite Hs4, Hs1, insert_insert_eq.
  - apply N.leb_gt in E. injection Hgrow as _ <-.
    rewrite Hq in Hq2. injection Hq2 as <-.
    exists q, (m_Container q), (m_Capacity q). split_and!; [done | lia | lia | done].
Qed.

Lemma Queue_copy_objs s this other s' :
  Queue_copy this other s = Ok tt s' →
  ∃ o p, objs s !! other = Some o ∧
         objs s' = <[this := MkQueue p (m_Size o) (m_Capacity o)]> (objs s).
Proof.
  intros (o & s0 & [-> Ho]%load_inv & (p & s1 & Hnew%keeps_operator_new & H)%bind_inv_Ok)%bind_inv_Ok.
  apply bind_inv_Ok in H as (a & s2 & Hst%store_inv & Hcp%keeps_copy_elements).
  exists o, p. split; [done |]. by rewrite Hcp, Hst, Hnew.
Qed.

Lemma assign_copy_objs s this other s' :
  assign_copy this other s = Ok tt s' →
  (this = other ∧ s' = s) ∨
  ∃ o p, objs s !! other = Some o ∧
         objs s' = <[this := MkQueue p (m_Size o) (m_Capacity o)]> (objs s).
Proof.
  unfold assign_copy. case_decide as Hne; [intros [= <-]; by left | right].
  apply bind_inv_Ok in H as ([] & s1 & (q & Hq & Hs1)%Clear_objs & H).
  apply bind_inv_Ok in H as (q1 & s2 & [-> Hq1]%load_inv & H).
  apply bind_inv_Ok in H as (a2 & s2 & Hdel%keeps_operator_delete & H).
  apply bind_inv_Ok in H as (o & s3 & [-> Ho]%load_inv & H).
  apply bind_inv_Ok in H as (p & s3 & Hnew%keeps_operator_new & H).
  apply bind_inv_Ok in H as (a4 & s4 & (q4 & Hq4 & Hs4)%set_m_Container_inv & H).
  apply bind_inv_Ok in H as (o5 & s5 & [-> Ho5]%load_inv & H).
  apply bind_inv_Ok in H as (a6 & s6 & (q6 & Hq6 & Hs6)%set_m_Size_inv & H).
  apply bind_inv_Ok in H as (o7 & s7 & [-> Ho7]%load_inv & H).
  apply bind_inv_Ok in H as (a8 & s8 & (q8 & Hq8 & Hs8)%set_m_Capacity_inv & Hcp%keeps_copy_elements).
  rewrite Hdel, Hs1, lookup_insert_ne in Ho by done.
  rewrite Hs4, Hnew, Hdel, Hs1, lookup_insert_ne, lookup_insert_ne in Ho5 by done.
  rewrite Hs6, lookup_insert_ne, Hs4, Hnew, Hdel, Hs1, lookup_insert_ne, lookup_insert_ne in Ho7
    by done.
  rewrite Ho in Ho5, Ho7. injection Ho5 as <-. injection Ho7 as <-.
  rewrite Hs4, lookup_insert_eq in Hq6. injection Hq6 as <-.
  rewrite Hs6, lookup_insert_eq in Hq8. injection Hq8 as <-.
  exists o, p. split; [done |].
  rewrite Hcp, Hs8, Hs6, Hs4, Hnew, Hdel, Hs1. cbn [m_Container m_Size m_Capacity].
  by rewrite !insert_insert_eq.
Qed.

Lemma moved_from_objs s other p s' :
  (set_m_Capacity other (wrap p) >> set_m_Size other 0 >> set_m_Capacity other INITIAL_CAPACITY) s
  = Ok tt s' →
  ∃ o, objs s !! other = Some o ∧ objs s' = <[other := MkQueue (m_Container o) 0 1]> (objs s).
Proof.
  intros (a & s1 & (o & Ho & Hs1)%set_m_Capacity_inv & H)%bind_inv_Ok.
  apply bind_inv_Ok in H as (a2 & s2 & (o2 & Ho2 & Hs2)%set_m_Size_inv
                             & (o3 & Ho3 & Hs3)%set_m_Capacity_inv).
  rewrite Hs1, lookup_insert_eq in Ho2. injection Ho2 as <-.
  rewrite Hs2, lookup_insert_eq in Ho3. injection Ho3 as <-.
  exists o. split; [done |].
  rewrite Hs3, Hs2, Hs1. cbn [m_Container]. by rewrite !insert_insert_eq.
Qed.

Lemma Queue_move_objs s this other s' :
  Queue_move this other s = Ok tt s' →
  ∃ o p, objs s !! other = Some o ∧
         objs s' = <[other := MkQueue p 0 1]>
                     (<[this := MkQueue (m_Capacity o) (m_Size o) (m_Capacity o)]> (objs s)).
Proof.
  intros (o & s0 & [-> Ho]%load_inv & (a & s1 & Hst%store_inv & H)%bind_inv_Ok)%bind_inv_Ok.
  apply bind_inv_Ok in H as (p & s2 & Hnew%keeps_operator_new & (o' & Ho' & Hs')%moved_from_objs).
  exists o, (m_Container o'). split; [done |]. by rewrite Hs', Hnew, Hst.
Qed.

Lemma assign_move_objs s this other s' :
  assign_move this other s = Ok tt s' →
  (this = other ∧ s' = s) ∨
  ∃ o p, objs s !! other = Some o ∧
         objs s' = <[other := MkQueue p 0 1]>
                     (<[this := MkQueue (m_Capacity o) (m_Size o) (m_Capacity o)]> (objs s)).
Proof.
  unfold assign_move. case_decide as Hne; [intros [= <-]; by left | right].
  apply bind_inv_Ok in H as (o & s1 & [-> Ho]%load_inv & H).
  apply bind_inv_Ok in H as (a1 & s1 & (q1 & Hq1 & Hs1)%set_m_Container_inv & H).
  apply bind_inv_Ok in H as (o2 & s2 & [-> Ho2]%load_inv & H).
  apply bind_inv_Ok in H as (a3 & s3 & (q3 & Hq3 & Hs3)%set_m_Size_inv & H).
  apply bind_inv_Ok in H as (o4 & s4 & [-> Ho4]%load_inv & H).
  apply bind_inv_Ok in H as (a5 & s5 & (q5 & Hq5 & Hs5)%set_m_Capacity_inv & H).
  apply bind_inv_Ok in H as (p & s6 & Hnew%keeps_operator_new & (o' & Ho' & Hs')%moved_from_objs).
  rewrite Hs1, lookup_insert_ne in Ho2 by done.
  rewrite Hs3, Hs1, !lookup_insert_ne in Ho4 by done.
  rewrite Ho in Ho2, Ho4. injection Ho2 as <-. injection Ho4 as <-.
  rewrite Hs1, lookup_insert_eq in Hq3. injection Hq3 as <-.
  rewrite Hs3, lookup_insert_eq in Hq5. injection Hq5 as <-.
  exists o, (m_Container o'). split; [done |].
  rewrite Hs', Hnew, Hs5, Hs3, Hs1. cbn [m_Container m_Size m_Capacity].
  by rewrite !insert_insert_eq.
Qed.

Lemma Reallocate_grow_throws s this q n e s' :
  objs s !! this = Some q → m_Capacity q < n →
  Reallocate this n s = Throw e s' → e = bad_alloc.
Proof.
  intros Hq Hlt. unfold Reallocate.
  erewrite bind_Ok by (by apply load_eq).
  apply N.leb_gt in Hlt. rewrite Hlt.
  match goal with |- ?m s = _ → _ => cut (throws_bad_alloc_only T m) end.
  { intros Honly. apply Honly. }
  unfold set_m_Container, set_m_Capacity, destroy_at, construct_at, move_out, read.
  only_bad_alloc.
Qed.

Lemma sized_insert s s' this p n c :
  sized s → objs s' = <[this := MkQueue p n c]> (objs s) → n ≤ c → sized s'.
Proof.
  intros Hs Hs' Hn that q. rewrite Hs', lookup_insert. case_decide.
  - by intros [= <-].
  - apply Hs.
Qed.

Lemma mutate_objs s this m s' :
  mutate this m s = Ok tt s' →
  ∃ q p' n' c', objs s !! this = Some q ∧ m_Capacity q ≤ c' ∧
                (m_Size q ≤ m_Capacity q → n' ≤ c') ∧
                objs s' = <[this := MkQueue p' n' c']> (objs s).
Proof.
  destruct m as [v|v| |]; simpl.
  - intros (q & p' & c' & ?)%Push_objs. by exists q, p', (wrap (m_Size q + 1)), c'.
  - intros (a & s1 & H1 & [= <-])%bind_inv_Ok. rewrite Push_move_Push in H1.
    destruct (Push this (Outside v) s) as [[] s2| |] eqn:E; [| done..]. injection H1 as _ <-.
    apply Push_objs in E as (q & p' & c' & ?). by exists q, p', (wrap (m_Size q + 1)), c'.
  - intros (q & n & Hq & Hn & Hs)%Pop_objs.
    exists q, (m_Container q), n, (m_Capacity q). split_and!; [done | lia | lia | done].
  - intros (q & Hq & Hs)%Clear_objs.
    exists q, (m_Container q), 0, (m_Capacity q). split_and!; [done | lia | lia | done].
Qed.

(** The tail of the move constructor and of move assignment, in a state
    where [other] is a queue object: a fresh block is allocated, its address
    goes through [other.m_Capacity] and is overwritten; [other.m_Container]
    is not assigned. *)
Lemma moved_from_spec s other o :
  objs s !! other = Some o →
  (let* p := operator_new (wrap (INITIAL_CAPACITY * sizeofT)) in
   set_m_Capacity other (wrap p) >>
   set_m_Size other 0 >>
   set_m_Capacity other INITIAL_CAPACITY) s
  = Ok tt (State (<[heap_top (heap s) := Block sizeofT [Uninit]]> (heap s))
                 (<[other := MkQueue (m_Container o) 0 1]> (objs s))).
Proof.
  intros Ho. unfold INITIAL_CAPACITY.
  pose proof sizeofT_max as Hmax.
  assert (1 * sizeofT ≤ PTRDIFF_MAX) as H1 by lia.
  rewrite (wrap_bytes 1 H1).
  erewrite bind_Ok by (by apply operator_new_eq). rewrite slots_in_bytes, N.mul_1_l.
  erewrite bind_Ok by (by eapply set_m_Capacity_eq).
  erewrite bind_Ok by (eapply set_m_Size_eq; cbn [objs]; by rewrite lookup_insert_eq).
  erewrite set_m_Capacity_eq by (cbn [objs]; by rewrite lookup_insert_eq).
  cbn [heap objs m_Container m_Size m_Capacity]. by rewrite !insert_insert_eq.
Qed.

(** What the move constructor does, as written, with a well-formed source:
    the new queue's [m_Container] is the source's capacity, not its buffer,
    and the source keeps its buffer and the elements in it. *)
Lemma Queue_move_spec s this other p cap l :
  holds s other p cap l → this ≠ other →
  Queue_move this other s
  = Ok tt (State (<[heap_top (heap s) := Block sizeofT [Uninit]]> (heap s))
                 (<[other := MkQueue p 0 1]>
                    (<[this := MkQueue cap (N.of_nat (length l)) cap]> (objs s)))).
Proof.
  intros (Hq & _) Hne. unfold Queue_move.
  erewrite bind_Ok by (by apply load_eq).
  erewrite bind_Ok by apply store_eq. cbn [m_Capacity m_Size].
  erewrite moved_from_spec; [| cbn [objs]; by rewrite lookup_insert_ne].
  done.
Qed.

(** What move assignment does, as written, between two well-formed queues:
    as the move constructor; the buffer [this] had is neither cleared nor
    released. *)
Lemma assign_move_spec s this other p cap l q :
  holds s other p cap l → objs s !! this = Some q → this ≠ other →
  assign_move this other s
  = Ok tt (State (<[heap_top (heap s) := Block sizeofT [Uninit]]> (heap s))
                 (<[other := MkQueue p 0 1]>
                    (<[this := MkQueue cap (N.of_nat (length l)) cap]> (objs s)))).
Proof.
  intros (Hq & _) Hthis Hne. unfold assign_move. rewrite decide_False by done.
  erewrite bind_Ok by (by apply load_eq).
  erewrite bind_Ok by (by eapply set_m_Container_eq). cbn [m_Capacity m_Size].
  erewrite bind_Ok by (apply load_eq; cbn [objs]; by rewrite lookup_insert_ne).
  erewrite bind_Ok by (eapply set_m_Size_eq; cbn [objs]; by rewrite lookup_insert_eq).
  erewrite bind_Ok by (apply load_eq; cbn [objs]; by rewrite !lookup_insert_ne).
  erewrite bind_Ok by (eapply set_m_Capacity_eq; cbn [objs]; by rewrite lookup_insert_eq).
  erewrite moved_from_spec; [| cbn [objs]; by rewrite !lookup_insert_ne].
  cbn [heap objs m_Container m_Size m_Capacity]. by rewrite !insert_insert_eq.
Qed.

Lemma exec_sized c s s' : sized s → exec c s = Ok tt s' → sized s'.
Proof.
  intros Hs. destruct c as [this|this other|this other|this other|this other|this m]; simpl.
  - intros (p & Hs')%Queue_default_objs. eapply sized_insert; [exact Hs | exact Hs' | lia].
  - intros (o & p & Ho & Hs')%Queue_copy_objs.
    eapply sized_insert; [exact Hs | exact Hs' | by apply Hs in Ho].
  - intros (o & p & Ho & Hs')%Queue_move_objs that q.
    rewrite Hs', !lookup_insert. repeat case_decide.
    + intros [= <-]. simpl. lia.
    + intros [= <-]. simpl. by apply Hs in Ho.
    + apply Hs.
  - intros [[-> ->] | (o & p & Ho & Hs')]%assign_copy_objs; [done |].
    eapply sized_insert; [exact Hs | exact Hs' | by apply Hs in Ho].
  - intros [[-> ->] | (o & p & Ho & Hs')]%assign_move_objs; [done |]. intros that q.
    rewrite Hs', !lookup_insert. repeat case_decide.
    + intros [= <-]. simpl. lia.
    + intros [= <-]. simpl. by apply Hs in Ho.
    + apply Hs.
  - intros (q & p' & n' & c' & Hq & _ & Hn & Hs')%mutate_objs.
    eapply sized_insert; [exact Hs | exact Hs' |]. apply Hn. by apply Hs in Hq.
Qed.

(** ** When a member function throws *)

Ltac quiet_in H :=
  exfalso; revert H;
  match goal with
  | |- ?m ?s = Throw _ _ → False =>
      let Hquiet := fresh "Hquiet" in
      cut (never_throws T m); [intros Hquiet; apply Hquiet |]
  end;
  unfold set_m_Container, set_m_Size, set_m_Capacity, copy_elements,
    destroy_at, construct_at, move_out, read;
  quiet.

Lemma Reallocate_Throw s this n e s' : Reallocate this n s = Throw e s' → s' = s.
Proof.
  intros [H | (q & s1 & [-> Hq]%load_inv & H)]%bind_inv_Throw; [by apply quiet_load in H |].
  destruct (n <=? m_Capacity q); [by injection H as _ <- |].
  apply bind_inv_Throw in H as [H | (p & s1 & _ & H)]; [by apply operator_new_Throw in H |].
  quiet_in H.
Qed.

Lemma Push_Throw s this value e s' : Push this value s = Throw e s' → s' = s.
Proof.
  intros [H | (q & s1 & [-> Hq]%load_inv & H)]%bind_inv_Throw; [by apply quiet_load in H |].
  apply bind_inv_Throw in H as [H | (a & s1 & _ & H)].
  - destruct (m_Capacity q <=? m_Size q); [by apply Reallocate_Throw in H | done].
  - exfalso. revert H.
    match goal with
    | |- ?m ?s = Throw _ _ → False => cut (never_throws T m); [intros Hquiet; apply Hquiet |]
    end.
    apply quiet_bind; [apply quiet_load | intros q2].
    apply quiet_bind; [apply quiet_deref | intros v].
    unfold construct_at, set_m_Size. quiet.
Qed.

Lemma mutate_Throw s this m e s' : mutate this m s = Throw e s' → s' = s.
Proof.
  destruct m as [v|v| |]; simpl.
  - apply Push_Throw.
  - intros [H | (a & s1 & _ & H)]%bind_inv_Throw; [| done].
    rewrite Push_move_Push in H.
    destruct (Push this (Outside v) s) as [[] s2|e2 s2|] eqn:E; [done | | done].
    injection H as -> ->. by apply Push_Throw in E.
  - intros H. by apply quiet_Pop in H.
  - intros H. by apply quiet_Clear in H.
Qed.

Lemma exec_sized_Throw c s e s' : sized s → exec c s = Throw e s' → sized s'.
Proof.
  intros Hs. destruct c as [this|this other|this other|this other|this other|this m]; simpl.
  - intros [H | (p & s1 & _ & H)]%bind_inv_Throw; [| done].
    by apply operator_new_Throw in H as ->.
  - intros [H | (o & s1 & [-> Ho]%load_inv & H)]%bind_inv_Throw; [by apply quiet_load in H |].
    apply bind_inv_Throw in H as [H | (p & s1 & _ & H)]; [| quiet_in H].
    by apply operator_new_Throw in H as ->.
  - intros [H | (o & s1 & [-> Ho]%load_inv & H)]%bind_inv_Throw; [by apply quiet_load in H |].
    apply bind_inv_Throw in H as [H | (a & s1 & Hst%store_inv & H)]; [done |].
    apply bind_inv_Throw in H as [H | (p & s2 & _ & H)]; [| quiet_in H].
    apply operator_new_Throw in H as ->.
    eapply sized_insert; [exact Hs | exact Hst | by apply Hs in Ho].
  - unfold assign_copy. case_decide as Hne; [done |].
    intros [H | ([] & s1 & (q & Hq & Hs1)%Clear_objs & H)]%bind_inv_Throw;
      [by apply quiet_Clear in H |].
    apply bind_inv_Throw in H as [H | (q1 & s2 & [-> Hq1]%load_inv & H)];
      [by apply quiet_load in H |].
    apply bind_inv_Throw in H as [H | (a2 & s2 & Hdel%keeps_operator_delete & H)];
      [by apply quiet_operator_delete in H |].
    apply bind_inv_Throw in H as [H | (o & s3 & [-> Ho]%load_inv & H)];
      [by apply quiet_load in H |].
    apply bind_inv_Throw in H as [H | (p & s3 & _ & H)]; [| quiet_in H].
    apply operator_new_Throw in H as ->.
    eapply sized_insert; [exact Hs | by rewrite Hdel | lia].
  - unfold assign_move. case_decide as Hne; [done |].
    intros [H | (o & s1 & [-> Ho]%load_inv & H)]%bind_inv_Throw; [by apply quiet_load in H |].
    apply bind_inv_Throw in H as [H | (a1 & s1 & (q1 & Hq1 & Hs1)%set_m_Container_inv & H)];
      [by apply quiet_set_m_Container in H |].
    apply bind_inv_Throw in H as [H | (o2 & s2 & [-> Ho2]%load_inv & H)];
      [by apply quiet_load in H |].
    apply bind_inv_Throw in H as [H | (a3 & s3 & (q3 & Hq3 & Hs3)%set_m_Size_inv & H)];
      [by apply quiet_set_m_Size in H |].
    apply bind_inv_Throw in H as [H | (o4 & s4 & [-> Ho4]%load_inv & H)];
      [by apply quiet_load in H |].
    apply bind_inv_Throw in H as [H | (a5 & s5 & (q5 & Hq5 & Hs5)%set_m_Capacity_inv & H)];
      [by apply quiet_set_m_Capacity in H |].
    apply bind_inv_Throw in H as [H | (p & s6 & _ & H)]; [| quiet_in H].
    apply operator_new_Throw in H as ->.
    rewrite Hs1, lookup_insert_ne in Ho2 by done.
    rewrite Hs3, Hs1, !lookup_insert_ne in Ho4 by done.
    rewrite Ho in Ho2, Ho4. injection Ho2 as <-. injection Ho4 as <-.
    rewrite Hs1, lookup_insert_eq in Hq3. injection Hq3 as <-.
    rewrite Hs3, lookup_insert_eq in Hq5. injection Hq5 as <-.
    cbn [m_Container m_Size m_Capacity] in Hs5.
    rewrite Hs3, Hs1, !insert_insert_eq in Hs5.
    eapply sized_insert; [exact Hs | exact Hs5 | by apply Hs in Ho].
  - by intros ->%mutate_Throw.
Qed.

(** ** A sequence of pushes and pops *)

Lemma run_spec this ops : ∀ s p cap l B,
  holds s this p cap l →
  cap ≤ B → 2 * N.of_nat (length l + length (pushed ops)) ≤ B → B * sizeofT ≤ PTRDIFF_MAX →
  ∃ obs rest p' cap' s',
    run this ops s = Ok obs s' ∧
    holds s' this p' cap' rest ∧
    l ++ pushed ops = obs ++ rest ∧
    length rest = queued ops (length l).
Proof.
  pose proof sizeofT_pos as Hpos.
  induction ops as [|[v|] ops IH]; intros s p cap l B Hh Hcap Hmem HB.
  - exists [], l, p, cap, s. simpl. by rewrite (right_id_L [] (++)).
  - simpl in *. pose proof Hh as (Hq & Hb & Hl & Hc & Hm).
    destruct (decide (N.of_nat (length l) < cap)) as [Hroom|Hfull].
    + destruct (IH (install s this p cap (l ++ [v])) p cap (l ++ [v]) B)
        as (obs & rest & p' & cap' & s' & Hrun & Hh' & Heq & Hlen).
      { apply holds_install; [rewrite length_app; simpl; lia | done..]. }
      { done. }
      { rewrite length_app. simpl. lia. }
      { done. }
      exists obs, rest, p', cap', s'.
      erewrite bind_Ok by (by apply Push_room).
      rewrite <- (assoc_L (++)) in Heq. rewrite length_app, Nat.add_1_r in Hlen. done.
    + assert (N.of_nat (length l) = cap) as Hfull' by lia.
      assert (2 * cap * sizeofT ≤ PTRDIFF_MAX) as Hgrow by nia.
      destruct (IH (install (release s p) this (heap_top (heap s)) (2 * cap) (l ++ [v]))
                  (heap_top (heap s)) (2 * cap) (l ++ [v]) B)
        as (obs & rest & p' & cap' & s' & Hrun & Hh' & Heq & Hlen).
      { apply holds_install; [rewrite length_app; simpl; lia | lia | lia]. }
      { lia. }
      { rewrite length_app. simpl. lia. }
      { done. }
      exists obs, rest, p', cap', s'.
      erewrite bind_Ok by (by apply Push_grow).
      rewrite <- (assoc_L (++)) in Heq. rewrite length_app, Nat.add_1_r in Hlen. done.
  - simpl in *. pose proof Hh as (Hq & Hb & Hl & Hc & Hm).
    erewrite bind_Ok by (by eapply Empty_spec).
    destruct l as [|x l]; simpl.
    + destruct (IH s p cap [] B) as (obs & rest & p' & cap' & s' & Hrun & Hh' & Heq & Hlen);
        [done..|].
      exists obs, rest, p', cap', s'.
      by erewrite bind_Ok by (by eapply Pop_empty).
    + destruct (IH (install s this p cap l) p cap l B)
        as (obs & rest & p' & cap' & s' & Hrun & Hh' & Heq & Hlen).
      { apply holds_install; [simpl in *; lia | done..]. }
      { done. }
      { simpl in *. lia. }
      { done. }
      exists (x :: obs), rest, p', cap', s'.
      erewrite bind_Ok by (by eapply Front_spec).
      erewrite bind_Ok by (by eapply Pop_spec).
      erewrite bind_Ok by done.
      split_and!; [done | done | | done]. simpl. by rewrite Heq.
Qed.

(** ** Two queues *)

Lemma steps_to_refl s this p cap l : holds s this p cap l → steps_to s this p s.
Proof. intros Hh. split; [exists p, cap, l; eauto | done]. Qed.

Lemma steps_to_install s this p cap l l' :
  holds s this p cap l → N.of_nat (length l') ≤ cap →
  steps_to s this p (install s this p cap l').
Proof.
  intros (Hq & Hb & Hl & Hc & Hm) Hl'. split.
  - exists p, cap, l'. split; [by apply holds_install | by left].
  - intros that p' c' l1 Hh' ??. by apply install_frame.
Qed.

Lemma steps_to_grown s this p cap l l' :
  holds s this p cap l → 2 * cap * sizeofT ≤ PTRDIFF_MAX → N.of_nat (length l') ≤ 2 * cap →
  steps_to s this p (install (release s p) this (heap_top (heap s)) (2 * cap) l').
Proof.
  intros (Hq & Hb & Hl & Hc & Hm) Hg Hl'. split.
  - exists (heap_top (heap s)), (2 * cap), l'.
    split; [apply holds_install; lia | right; apply heap_top_fresh].
  - intros that p' c' l1 Hh' ??.
    apply install_frame; [by apply release_frame | done |].
    destruct Hh' as (_ & Hb' & _). intros ->. by rewrite heap_top_fresh in Hb'.
Qed.

Lemma Push_step s this p cap l v :
  holds s this p cap l →
  (∃ s', Push this (Outside v) s = Ok tt s' ∧ steps_to s this p s') ∨
  Push this (Outside v) s = Throw bad_alloc s.
Proof.
  intros Hh. pose proof Hh as (Hq & Hb & Hl & Hc & Hm).
  destruct (decide (N.of_nat (length l) < cap)) as [Hroom|Hfull].
  - left. eexists. split; [by apply Push_room |].
    eapply steps_to_install; [done |]. rewrite length_app. simpl. lia.
  - destruct (decide (2 * cap * sizeofT ≤ PTRDIFF_MAX)).
    + left. eexists. split; [apply Push_grow; [done | lia | done] |].
      eapply steps_to_grown; [done | done |]. rewrite length_app. simpl. lia.
    + right. eapply Push_bad_alloc; [done | lia | lia].
Qed.

Lemma mutate_step s this p cap l m :
  holds s this p cap l →
  (∃ s', mutate this m s = Ok tt s' ∧ steps_to s this p s') ∨
  mutate this m s = Throw bad_alloc s.
Proof.
  intros Hh. pose proof Hh as (Hq & Hb & Hl & Hc & Hm).
  destruct m as [v|v| |]; simpl.
  - by eapply Push_step.
  - unfold bind. rewrite Push_move_Push.
    destruct (Push_step s this p cap l v Hh) as [(s' & -> & Hs') | ->]; eauto.
  - left. destruct l as [|x l].
    + exists s. split; [by erewrite Pop_empty | by eapply steps_to_refl].
    + eexists. split; [by eapply Pop_spec |].
      eapply steps_to_install; [done |]. simpl in Hl. lia.
  - left. eexists. split; [by eapply Clear_spec |].
    eapply steps_to_install; [done |]. simpl. lia.
Qed.

(** Mutating one queue, any number of times, leaves another queue with a
    buffer of its own as it was; and the mutations return, or one of them
    runs out of memory. *)
Lemma mutate_all_frame this that p' cap' l' ms : ∀ s p cap l,
  holds s this p cap l → holds s that p' cap' l' → this ≠ that → p ≠ p' →
  match mutate_all this ms s with
  | Ok _ s' | Throw _ s' => holds s' that p' cap' l'
  | UB => False
  end.
Proof.
  induction ms as [|m ms IH]; intros s p cap l Hh Hh' Hne Hnp; simpl; [done |].
  unfold bind.
  destruct (mutate_step s this p cap l m Hh) as [(s1 & -> & Hs1) | ->]; [| done].
  destruct Hs1 as [(p1 & c1 & l1 & Hh1 & Hp1) Hframe].
  eapply IH; [exact Hh1 | by apply Hframe | done |].
  destruct Hp1 as [-> | Hfree]; [done |].
  destruct Hh' as (_ & Hb' & _). intros ->. by rewrite Hfree in Hb'.
Qed.

Lemma holds_read s this p cap l i x :
  holds s this p cap l → l !! i = Some x → read p (N.of_nat i) s = Ok x s.
Proof.
  intros (Hq & Hb & _) Hi. eapply read_eq; [done |]. cbn [blk_slots].
  rewrite Nat2N.id. unfold slots_of.
  rewrite lookup_app_l by (rewrite length_fmap; by eapply lookup_lt_Some).
  by rewrite list_lookup_fmap, Hi.
Qed.

(** ** The destructor, and a queue from construction to destruction *)

Lemma Queue_destroy_spec s this p cap l :
  holds s this p cap l →
  Queue_destroy this s = Ok tt (State (delete p (heap s)) (delete this (objs s))).
Proof.
  intros Hh. pose proof Hh as (Hq & Hb & Hl & Hc & Hm). unfold Queue_destroy.
  erewrite bind_Ok by (by eapply Clear_spec).
  erewrite bind_Ok by (apply load_eq; unfold install; cbn [objs]; by rewrite lookup_insert_eq).
  cbn [m_Container m_Capacity]. rewrite (wrap_bytes cap Hm).
  erewrite bind_Ok; last first.
  { apply (operator_delete_eq _ p (Block (cap * sizeofT) (slots_of cap []))).
    unfold install. cbn [heap]. by rewrite lookup_insert_eq. }
  unfold release, install. cbn [heap objs]. by rewrite !delete_insert_eq.
Qed.

Lemma destroyed_frame s this p that p' cap' l' :
  holds s that p' cap' l' → that ≠ this → p' ≠ p →
  holds (State (delete p (heap s)) (delete this (objs s))) that p' cap' l'.
Proof.
  intros (Hq & Hb & ?) ??. unfold holds. cbn [heap objs].
  by rewrite !lookup_delete_ne.
Qed.

(** Writing the queue twice is writing it once. *)
Lemma install_install s this p cap l cap' l' :
  install (install s this p cap l) this p cap' l' = install s this p cap' l'.
Proof. unfold install. cbn [heap objs]. by rewrite !insert_insert_eq. Qed.

(** Moving the queue to another buffer: the old block is gone. *)
Lemma install_release_install s this p cap l p' cap' l' :
  heap s !! p = None →
  install (release (install s this p cap l) p) this p' cap' l' = install s this p' cap' l'.
Proof.
  intros Hp. unfold install, release. cbn [heap objs].
  by rewrite delete_insert_id, insert_insert_eq.
Qed.

Lemma heap_top_install_fresh s this p cap l :
  heap s !! heap_top (heap (install s this p cap l)) = None.
Proof.
  pose proof (heap_top_fresh (heap (install s this p cap l))) as Hf.
  set (top := heap_top (heap (install s this p cap l))) in *.
  unfold install in Hf. cbn [heap] in Hf.
  by apply lookup_insert_None in Hf as [? _].
Qed.

(** A sequence of pushes and pops, seen from the state the queue was
    constructed in: whatever happens, that state plus one queue and one
    buffer is what there is. *)
Lemma run_install this ops : ∀ s0 p cap l B,
  heap s0 !! p = None →
  N.of_nat (length l) ≤ cap → 0 < cap →
  cap ≤ B → 2 * N.of_nat (length l + length (pushed ops)) ≤ B → B * sizeofT ≤ PTRDIFF_MAX →
  ∃ obs rest p' cap',
    run this ops (install s0 this p cap l) = Ok obs (install s0 this p' cap' rest) ∧
    heap s0 !! p' = None ∧
    holds (install s0 this p' cap' rest) this p' cap' rest ∧
    l ++ pushed ops = obs ++ rest ∧
    length rest = queued ops (length l).
Proof.
  pose proof sizeofT_pos as Hpos.
  induction ops as [|[v|] ops IH]; intros s0 p cap l B Hp Hl Hc Hcap Hmem HB.
  - exists [], l, p, cap. simpl. rewrite (right_id_L [] (++)).
    split_and!; [done | done | apply holds_install; [done | done | nia] | done | done].
  - simpl in *.
    assert (holds (install s0 this p cap l) this p cap l) as Hh
      by (apply holds_install; [done | done | nia]).
    destruct (decide (N.of_nat (length l) < cap)) as [Hroom|Hfull].
    + destruct (IH s0 p cap (l ++ [v]) B) as (obs & rest & p' & cap' & Hrun & Hp' & Hh' & Heq & Hlen);
        [done | rewrite length_app; simpl; lia | done | done | rewrite length_app; simpl; lia | done |].
      exists obs, rest, p', cap'.
      erewrite bind_Ok by (by apply Push_room). rewrite install_install.
      rewrite <- (assoc_L (++)) in Heq. rewrite length_app, Nat.add_1_r in Hlen. done.
    + assert (N.of_nat (length l) = cap) as Hfull' by lia.
      assert (2 * cap * sizeofT ≤ PTRDIFF_MAX) as Hgrow by nia.
      destruct (IH s0 (heap_top (heap (install s0 this p cap l))) (2 * cap) (l ++ [v]) B)
        as (obs & rest & p' & cap' & Hrun & Hp' & Hh' & Heq & Hlen);
        [apply heap_top_install_fresh | rewrite length_app; simpl; lia | lia | lia
        | rewrite length_app; simpl; lia | done |].
      exists obs, rest, p', cap'.
      erewrite bind_Ok by (by apply Push_grow). rewrite install_release_install by done.
      rewrite <- (assoc_L (++)) in Heq. rewrite length_app, Nat.add_1_r in Hlen. done.
  - simpl in *.
    assert (holds (install s0 this p cap l) this p cap l) as Hh
      by (apply holds_install; [done | done | nia]).
    erewrite bind_Ok by (by eapply Empty_spec).
    destruct l as [|x l]; simpl.
    + destruct (IH s0 p cap [] B) as (obs & rest & p' & cap' & Hrun & Hp' & Hh' & Heq & Hlen);
        [done..|].
      exists obs, rest, p', cap'.
      destruct Hh as (Hq & _).
      by erewrite bind_Ok by (by eapply Pop_empty).
    + destruct (IH s0 p cap l B) as (obs & rest & p' & cap' & Hrun & Hp' & Hh' & Heq & Hlen);
        [done | simpl in *; lia | done | done | simpl in *; lia | done |].
      exists (x :: obs), rest, p', cap'.
      erewrite bind_Ok by (by eapply Front_spec).
      erewrite bind_Ok by (by eapply Pop_spec). rewrite install_install.
      erewrite bind_Ok by done.
      split_and!; [done | done | done | | done]. simpl. by rewrite Heq.
Qed.

(** From [Queue()] on: the same, starting at any state. *)
Lemma run_from_default s this ops :
  N.max 1 (2 * N.of_nat (length (pushed ops))) * sizeofT ≤ PTRDIFF_MAX →
  ∃ obs rest p cap,
    (Queue_default this >> run this ops) s = Ok obs (install s this p cap rest) ∧
    heap s !! p = None ∧
    holds (install s this p cap rest) this p cap rest ∧
    pushed ops = obs ++ rest ∧
    length rest = queued ops 0.
Proof.
  intros Hmem. erewrite bind_Ok by apply Queue_default_spec.
  destruct (run_install this ops s (heap_top (heap s)) 1 []
              (N.max 1 (2 * N.of_nat (length (pushed ops)))))
    as (obs & rest & p & cap & Hrun & Hp & Hh & Heq & Hlen);
    [apply heap_top_fresh | simpl; lia | lia | lia | simpl; lia | done |].
  exists obs, rest, p, cap. done.
Qed.

(** ** Copy assignment between two queues *)

Lemma assign_copy_spec s this pt ct lt other p cap l :
  holds s this pt ct lt → holds s other p cap l → this ≠ other → pt ≠ p →
  assign_copy this other s
  = Ok tt (install (release s pt) this (heap_top (delete pt (heap s))) cap l).
Proof.
  intros Hh (Ho & Hb & Hl & Hc & Hm) Hne Hnp. pose proof Hh as (Hq & Hbt & Hlt & Hct & Hmt).
  unfold assign_copy. rewrite decide_False by done.
  erewrite bind_Ok by (by eapply Clear_spec).
  erewrite bind_Ok by (apply load_eq; unfold install; cbn [objs]; by rewrite lookup_insert_eq).
  cbn [m_Container m_Capacity]. rewrite (wrap_bytes ct Hmt).
  erewrite bind_Ok; last first.
  { apply (operator_delete_eq _ pt (Block (ct * sizeofT) (slots_of ct []))).
    unfold install. cbn [heap]. by rewrite lookup_insert_eq. }
  unfold release, install. cbn [heap objs]. rewrite delete_insert_eq.
  set (o1 := <[this := MkQueue pt (N.of_nat (length ([] : list T))) ct]> (objs s)).
  assert (o1 !! other = Some (MkQueue p (N.of_nat (length l)) cap)) as Ho1
    by (unfold o1; by rewrite lookup_insert_ne).
  erewrite bind_Ok by (by apply load_eq). cbn [m_Capacity].
  rewrite (wrap_bytes cap Hm).
  erewrite bind_Ok by (by apply operator_new_eq). rewrite slots_in_bytes. cbn [heap objs].
  set (h1 := delete pt (heap s)).
  set (p' := heap_top h1).
  assert (h1 !! p = Some (Block (cap * sizeofT) (slots_of cap l))) as Hb1
    by (unfold h1; by rewrite lookup_delete_ne).
  assert (p' ≠ p) as Hp'.
  { intros Heq. pose proof (heap_top_fresh h1) as Hf. fold p' in Hf. congruence. }
  erewrite bind_Ok
    by (eapply set_m_Container_eq; cbn [objs]; unfold o1; by rewrite lookup_insert_eq).
  cbn [heap objs m_Size m_Capacity].
  erewrite bind_Ok by (apply load_eq; cbn [objs]; rewrite lookup_insert_ne by done; exact Ho1).
  erewrite bind_Ok by (eapply set_m_Size_eq; cbn [objs]; by rewrite lookup_insert_eq).
  cbn [heap objs m_Size m_Capacity m_Container].
  erewrite bind_Ok
    by (apply load_eq; cbn [objs]; rewrite !lookup_insert_ne by done; exact Ho1).
  erewrite bind_Ok by (eapply set_m_Capacity_eq; cbn [objs]; by rewrite lookup_insert_eq).
  cbn [heap objs m_Size m_Capacity m_Container].
  unfold o1. rewrite !insert_insert_eq.
  set (s1 := State _ _). unfold copy_elements.
  assert (objs s1 !! this = Some (MkQueue p' (N.of_nat (length l)) cap)) as Hq1
    by (unfold s1; cbn [objs]; by rewrite lookup_insert_eq).
  erewrite bind_Ok by (by apply load_eq). cbn [m_Size]. rewrite Nat2N.id.
  etrans.
  { eapply (copy_loop l [] [] (replicate (N.to_nat cap - length l) Uninit)
              (replicate (N.to_nat cap - length l) Uninit) s1 this other
              _ (MkQueue p (N.of_nat (length l)) cap) (cap * sizeofT) (cap * sizeofT));
      [done | | done | | | done].
    - unfold s1. cbn [objs]. by rewrite lookup_insert_ne.
    - unfold s1. cbn [heap m_Container]. rewrite lookup_insert_ne by done. exact Hb1.
    - unfold s1. cbn [heap m_Container app]. rewrite lookup_insert_eq, <- replicate_add.
      do 3 f_equal. lia. }
  unfold s1. cbn [heap objs m_Container app]. by rewrite insert_insert_eq.
Qed.

(** ** The capacity after a run of pushes *)

Lemma pow2_log2_up n k :
  n ≤ 2 ^ k → (k = 0 ∨ 2 ^ (k - 1) < n) → k = N.log2_up n.
Proof.
  intros Hle [-> | Hlt].
  - symmetry. apply N.log2_up_eqn0. simpl in Hle. lia.
  - destruct (decide (k = 0)) as [-> | Hk].
    + symmetry. apply N.log2_up_eqn0. simpl in *. lia.
    + symmetry. apply N.log2_up_unique; [lia |].
      replace (N.pred k) with (k - 1) by lia. done.
Qed.

Lemma pushes_capacity this vs : ∀ s p k l,
  holds s this p (2 ^ k) l →
  (k = 0 ∨ 2 ^ (k - 1) < N.of_nat (length l)) →
  2 * N.of_nat (length l + length vs) * sizeofT ≤ PTRDIFF_MAX →
  ∃ p' k' s',
    run this (OPush <$> vs) s = Ok [] s' ∧
    holds s' this p' (2 ^ k') (l ++ vs) ∧
    (k' = 0 ∨ 2 ^ (k' - 1) < N.of_nat (length (l ++ vs))).
Proof.
  pose proof sizeofT_pos as Hpos.
  induction vs as [|v vs IH]; intros s p k l Hh Hk Hmem.
  - exists p, k, s. simpl. by rewrite (right_id_L [] (++)).
  - simpl in *. pose proof Hh as (Hq & Hb & Hl & Hc & Hm).
    destruct (decide (N.of_nat (length l) < 2 ^ k)) as [Hroom|Hfull].
    + destruct (IH (install s this p (2 ^ k) (l ++ [v])) p k (l ++ [v]))
        as (p' & k' & s' & Hrun & Hh' & Hk').
      { apply holds_install; [rewrite length_app; simpl; lia | done..]. }
      { rewrite length_app. simpl. lia. }
      { rewrite length_app. simpl. lia. }
      exists p', k', s'. erewrite bind_Ok by (by apply Push_room).
      rewrite <- (assoc_L (++)) in Hh', Hk'. done.
    + assert (N.of_nat (length l) = 2 ^ k) as Hfull' by lia.
      assert (2 * 2 ^ k * sizeofT ≤ PTRDIFF_MAX) as Hgrow by nia.
      assert (2 * 2 ^ k = 2 ^ (k + 1)) as Hpow by (by rewrite N.add_1_r, N.pow_succ_r').
      destruct (IH (install (release s p) this (heap_top (heap s)) (2 ^ (k + 1)) (l ++ [v]))
                  (heap_top (heap s)) (k + 1) (l ++ [v]))
        as (p' & k' & s' & Hrun & Hh' & Hk').
      { apply holds_install; [rewrite length_app; simpl; lia | lia | lia]. }
      { right. replace (k + 1 - 1) with k by lia. rewrite length_app. simpl. lia. }
      { rewrite length_app. simpl. lia. }
      exists p', k', s'. erewrite bind_Ok by (by apply Push_grow). rewrite Hpow.
      rewrite <- (assoc_L (++)) in Hh', Hk'. done.
Qed.

End proofs.

(** * The specification *)

Section claims.
Context {T : Type} `{!Element T}.

Implicit Types (s : state T) (q : Queue) (l : list T).

(** C4. [Reallocate(newCapacity)] with [newCapacity <= m_Capacity] throws
    [std::invalid_argument] and leaves the state as it was; with
    [newCapacity > m_Capacity] it never throws [std::invalid_argument]. *)
Theorem Reallocate_rejects_non_growth s this q newCapacity :
  objs s !! this = Some q →
  (newCapacity ≤ m_Capacity q →
   Reallocate this newCapacity s = Throw invalid_argument s) ∧
  (m_Capacity q < newCapacity →
   ∀ s', Reallocate this newCapacity s ≠ Throw invalid_argument s').
Proof.
  intros Hq. split.
  - intros Hle. unfold Reallocate. erewrite bind_Ok by (by apply load_eq).
    apply N.leb_le in Hle. by rewrite Hle.
  - intros Hlt s' Hthrow. by apply (Reallocate_grow_throws s this q) in Hthrow.
Qed.

(** C7. [Pop()] and [Clear()] on an empty queue return normally and leave
    the whole state (members and buffer) as it was. *)
Theorem Pop_Clear_empty_noop s this q :
  objs s !! this = Some q → m_Size q = 0 →
  Pop this s = Ok tt s ∧ Clear this s = Ok tt s.
Proof.
  intros Hq Hz. split; [by eapply Pop_empty | by eapply Clear_empty].
Qed.

(** C10. Self-assignment, by copy or by move, returns at once and leaves
    the whole state as it was. *)
Theorem self_assignment_noop s this :
  assign_copy this this s = Ok tt s ∧ assign_move this this s = Ok tt s.
Proof.
  unfold assign_copy, assign_move. by destruct (decide (this = this)).
Qed.

(** C5. [m_Size <= m_Capacity] holds of a default-constructed queue and is
    preserved, for every queue object, by every constructor, assignment and
    mutator, whether it returns or throws; and [Push], [Pop] and [Clear]
    never lower [m_Capacity] (if they throw, nothing has changed). *)
Theorem capacity_bounds_size s c :
  sized s →
  (∀ s', exec c s = Ok tt s' →
     sized s' ∧
     (∀ this, c = CDefault this →
        ∃ q, objs s' !! this = Some q ∧ m_Size q = 0 ∧ m_Capacity q = 1) ∧
     (∀ this m q, c = CMutate this m → objs s !! this = Some q →
        ∃ q', objs s' !! this = Some q' ∧ m_Capacity q ≤ m_Capacity q')) ∧
  (∀ e s', exec c s = Throw e s' →
     sized s' ∧ (∀ this m, c = CMutate this m → s' = s)).
Proof.
  intros Hs. split.
  - intros s' Hc. split_and!.
    + by eapply exec_sized.
    + intros this ->. simpl in Hc. apply Queue_default_objs in Hc as (p & Hs').
      eexists. rewrite Hs', lookup_insert_eq. done.
    + intros this m q -> Hq. simpl in Hc.
      apply mutate_objs in Hc as (q0 & p' & n' & c' & Hq0 & Hc' & _ & Hs').
      rewrite Hq in Hq0. injection Hq0 as <-.
      eexists. rewrite Hs', lookup_insert_eq. done.
  - intros e s' Hc. split.
    + by eapply exec_sized_Throw.
    + intros this m ->. simpl in Hc. by apply mutate_Throw in Hc.
Qed.

(** X14. From a default-constructed queue, any sequence of [Pop] and of
    [Push] of objects that are not elements of the queue runs to the end,
    given memory for the pushes; the fronts seen at the pops, followed by
    what is still queued, are the pushed values in push order, so the nth
    front seen is the nth pushed value. *)
Theorem FIFO_order s this ops :
  N.max 1 (2 * N.of_nat (length (pushed ops))) * sizeofT ≤ PTRDIFF_MAX →
  ∃ obs rest p cap s',
    (Queue_default this >> run this ops) s = Ok obs s' ∧
    holds s' this p cap rest ∧
    obs ++ rest = pushed ops ∧
    length rest = queued ops 0 ∧
    (∀ n x, obs !! n = Some x → pushed ops !! n = Some x).
Proof.
  intros Hmem. pose proof sizeofT_pos as Hpos.
  erewrite bind_Ok by apply Queue_default_spec.
  destruct (run_spec this ops (install s this (heap_top (heap s)) 1 []) (heap_top (heap s)) 1 []
              (N.max 1 (2 * N.of_nat (length (pushed ops)))))
    as (obs & rest & p & cap & s' & Hrun & Hh & Heq & Hlen).
  { apply holds_install; simpl; nia. }
  { lia. }
  { simpl. lia. }
  { done. }
  exists obs, rest, p, cap, s'. simpl in Heq.
  split_and!; [done | done | done | done |].
  intros n x Hn. rewrite Heq. by apply lookup_app_l_Some.
Qed.

(** X15. [Push(value)] of a live object, when the queue has room or when
    it is full and the object is not one of its own elements (and there is
    memory to grow): a full queue first moves its elements to a new buffer
    of exactly twice the capacity, otherwise it keeps the buffer; then a
    copy of the object is constructed behind the last element. It is the
    back, the size is one more, and the elements held before are where
    they were. By move, for an object of the caller's own, the state is the
    same and the object is left moved-from. *)
Theorem Push_appends s this p cap l value v :
  holds s this p cap l →
  designates s value v →
  (N.of_nat (length l) = cap → 2 * cap * sizeofT ≤ PTRDIFF_MAX ∧ ∀ i, value ≠ Inside p i) →
  ∃ s' p' cap',
    Push this value s = Ok tt s' ∧
    (∀ w, value = Outside w → Push_move this value s = Ok (Outside (moved w)) s') ∧
    holds s' this p' cap' (l ++ [v]) ∧
    (N.of_nat (length l) = cap →
       cap' = cap * 2 ∧ p' = heap_top (heap s) ∧ heap s' !! p = None) ∧
    (N.of_nat (length l) < cap → cap' = cap ∧ p' = p) ∧
    Back this s' = Ok v s' ∧
    Size this s' = Ok (N.of_nat (length l) + 1) s' ∧
    (∀ i x, l !! i = Some x → read p' (N.of_nat i) s' = Ok x s').
Proof.
  intros Hh Hv Hmem. pose proof Hh as (Hq & Hb & Hl & Hc & Hm).
  assert (∀ s' p' cap',
            Push this value s = Ok tt s' → holds s' this p' cap' (l ++ [v]) →
            (∀ w, value = Outside w → Push_move this value s = Ok (Outside (moved w)) s') ∧
            Back this s' = Ok v s' ∧
            Size this s' = Ok (N.of_nat (length l) + 1) s' ∧
            (∀ i x, l !! i = Some x → read p' (N.of_nat i) s' = Ok x s')) as Hrest.
  { intros s' p' cap' HP Hh'. split_and!.
    - intros w ->. by rewrite Push_move_Push, HP.
    - by eapply Back_spec.
    - erewrite Size_spec by done. rewrite length_app. simpl. do 2 f_equal. lia.
    - intros i x Hi. eapply holds_read; [done |]. by apply lookup_app_l_Some. }
  destruct (decide (N.of_nat (length l) < cap)) as [Hroom|Hfull].
  - exists (install s this p cap (l ++ [v])), p, cap.
    assert (holds (install s this p cap (l ++ [v])) this p cap (l ++ [v])) as Hh'.
    { apply holds_install; [rewrite length_app; simpl; lia | done..]. }
    pose proof (Push_ref_room s this p cap l value v Hh Hroom Hv) as HP.
    destruct (Hrest _ _ _ HP Hh') as (? & ? & ? & ?).
    split_and!; [done | done | done | lia | done | done | done | done].
  - assert (N.of_nat (length l) = cap) as Hfull' by lia.
    destruct (Hmem Hfull') as [Hgrow Hout].
    set (p' := heap_top (heap s)).
    exists (install (release s p) this p' (2 * cap) (l ++ [v])), p', (2 * cap).
    assert (holds (install (release s p) this p' (2 * cap) (l ++ [v])) this p' (2 * cap) (l ++ [v]))
      as Hh'.
    { apply holds_install; [rewrite length_app; simpl; lia | lia | lia]. }
    pose proof (Push_ref_grow s this p cap l value v Hh Hfull' Hgrow Hv Hout) as HP.
    destruct (Hrest _ _ _ HP Hh') as (? & ? & ? & ?).
    split_and!; [done | done | done | | lia | done | done | done].
    intros _. split_and!; [lia | done |].
    unfold install, release. cbn [heap].
    assert (p' ≠ p) as Hne.
    { intros Heq. pose proof (heap_top_fresh (heap s)) as Hf. fold p' in Hf. congruence. }
    rewrite lookup_insert_ne by done. by rewrite lookup_delete_eq.
Qed.

(** C9. [Clear()] destroys every live element and sets the size to 0; the
    capacity is what it was, the buffer is kept (all of it raw storage now)
    and no block is released. *)
Theorem Clear_keeps_capacity s this p cap l :
  holds s this p cap l →
  ∃ s',
    Clear this s = Ok tt s' ∧
    holds s' this p cap [] ∧
    Size this s' = Ok 0 s' ∧
    Capacity this s = Ok cap s ∧
    Capacity this s' = Ok cap s' ∧
    heap s' !! p = Some (Block (cap * sizeofT) (replicate (N.to_nat cap) Uninit)) ∧
    dom (heap s') = dom (heap s).
Proof.
  intros Hh. pose proof Hh as (Hq & Hb & Hl & Hc & Hm).
  exists (install s this p cap []).
  assert (holds (install s this p cap []) this p cap []) as Hh'.
  { apply holds_install; [simpl; lia | done..]. }
  split_and!.
  - by apply (Clear_spec s this p cap l).
  - done.
  - by erewrite Size_spec by done.
  - by eapply Capacity_spec.
  - by eapply Capacity_spec.
  - unfold install. cbn [heap]. by rewrite lookup_insert_eq, slots_of_nil.
  - unfold install. cbn [heap]. apply dom_insert_lookup_L. by rewrite Hb.
Qed.

(** C6. Copy construction returns a queue with the size, the capacity and
    the elements of the source, in a buffer of its own; the source is
    untouched. From then on no sequence of [Push], [Pop] and [Clear] on
    either queue changes the other. *)
Theorem copy_is_independent s this other p cap l :
  holds s other p cap l → this ≠ other →
  ∃ s' p',
    Queue_copy this other s = Ok tt s' ∧
    holds s' this p' cap l ∧
    holds s' other p cap l ∧
    p' ≠ p ∧
    objs s' !! other = objs s !! other ∧
    heap s' !! p = heap s !! p ∧
    ∀ ms,
      match mutate_all this ms s' with
      | Ok _ s'' | Throw _ s'' => holds s'' other p cap l
      | UB => False
      end ∧
      match mutate_all other ms s' with
      | Ok _ s'' | Throw _ s'' => holds s'' this p' cap l
      | UB => False
      end.
Proof.
  intros Hh Hne. pose proof Hh as (Hq & Hb & Hl & Hc & Hm).
  set (p' := heap_top (heap s)).
  assert (p' ≠ p) as Hnp.
  { intros Heq. pose proof (heap_top_fresh (heap s)) as Hf. fold p' in Hf. congruence. }
  assert (holds (install s this p' cap l) this p' cap l) as Hthis by by apply holds_install.
  assert (holds (install s this p' cap l) other p cap l) as Hother by by apply install_frame.
  exists (install s this p' cap l), p'.
  split_and!; [by apply (Queue_copy_spec s this other p cap l) | done | done | done | | |].
  - unfold install. cbn [objs]. by rewrite lookup_insert_ne.
  - unfold install. cbn [heap]. by rewrite lookup_insert_ne.
  - intros ms. split.
    + by eapply mutate_all_frame.
    + by eapply mutate_all_frame.
Qed.

End claims.


(** * More of the class *)

Section more.
Context {T : Type} `{!Element T}.

Implicit Types (s : state T) (q : Queue) (l : list T).

(** X1. The destructor of a well-formed queue returns; afterwards the
    buffer is released, the object is gone, and every other queue with a
    buffer of its own is as it was. *)
Theorem destructor_releases s this p cap l :
  holds s this p cap l →
  ∃ s',
    Queue_destroy this s = Ok tt s' ∧
    heap s' = delete p (heap s) ∧
    objs s' = delete this (objs s) ∧
    (∀ that p' cap' l',
       holds s that p' cap' l' → that ≠ this → p' ≠ p → holds s' that p' cap' l').
Proof.
  intros Hh. eexists. split_and!; [by eapply Queue_destroy_spec | done | done |].
  intros that p' cap' l' Hh' ??. by apply destroyed_frame.
Qed.

(** X2. A queue constructed where no object was, used for any sequence of
    [Push] and [Pop] and then destroyed, leaves the state exactly as it
    found it: every block it allocated has been released, once. *)
Theorem lifetime_restores_state s this ops :
  objs s !! this = None →
  N.max 1 (2 * N.of_nat (length (pushed ops))) * sizeofT ≤ PTRDIFF_MAX →
  (Queue_default this >> let* _ := run this ops in Queue_destroy this) s = Ok tt s.
Proof.
  intros Hthis Hmem.
  destruct (run_from_default s this ops Hmem) as (obs & rest & p & cap & Hrun & Hp & Hh & _).
  apply bind_inv_Ok in Hrun as ([] & s1 & Hdef & Hrun).
  erewrite bind_Ok by exact Hdef. erewrite bind_Ok by exact Hrun.
  erewrite Queue_destroy_spec by exact Hh.
  unfold install. cbn [heap objs]. rewrite !delete_insert_id by done. by destruct s.
Qed.

(** X3. Copy-constructing a queue where no object was and destroying the
    copy leaves the state exactly as it was. *)
Theorem copy_destroy_round_trip s this other p cap l :
  holds s other p cap l → objs s !! this = None →
  (Queue_copy this other >> Queue_destroy this) s = Ok tt s.
Proof.
  intros Hh Hthis. pose proof Hh as (Hq & Hb & Hl & Hc & Hm).
  assert (this ≠ other) as Hne by (intros ->; congruence).
  erewrite bind_Ok by (by eapply Queue_copy_spec).
  erewrite Queue_destroy_spec by (by apply holds_install).
  unfold install. cbn [heap objs].
  rewrite !delete_insert_id by (done || apply heap_top_fresh). by destruct s.
Qed.

(** X4. Copy assignment between two distinct well-formed queues releases
    the buffer the target had and gives the target a buffer of its own with
    the capacity and the elements of the source; the source and every other
    queue are as they were. *)
Theorem copy_assignment_replaces s this pt ct lt other p cap l :
  holds s this pt ct lt → holds s other p cap l → this ≠ other → pt ≠ p →
  ∃ s' p',
    assign_copy this other s = Ok tt s' ∧
    holds s' this p' cap l ∧
    holds s' other p cap l ∧
    p' ≠ p ∧
    heap s' = <[p' := Block (cap * sizeofT) (slots_of cap l)]> (delete pt (heap s)) ∧
    (∀ that p2 c2 l2,
       holds s that p2 c2 l2 → that ≠ this → p2 ≠ pt → holds s' that p2 c2 l2).
Proof.
  intros Hh Ho Hne Hnp. pose proof Ho as (Hq & Hb & Hl & Hc & Hm).
  assert (∀ that p2 c2 l2, holds s that p2 c2 l2 → that ≠ this → p2 ≠ pt →
            holds (install (release s pt) this (heap_top (delete pt (heap s))) cap l)
                  that p2 c2 l2) as Hframe.
  { intros that p2 c2 l2 Hh2 ??.
    apply install_frame; [by apply release_frame | done |].
    destruct Hh2 as (_ & Hb2 & _). intros Heq.
    pose proof (heap_top_fresh (delete pt (heap s))) as Hf.
    rewrite <- Heq, lookup_delete_ne in Hf by done. congruence. }
  exists (install (release s pt) this (heap_top (delete pt (heap s))) cap l),
         (heap_top (delete pt (heap s))).
  split_and!.
  - by eapply assign_copy_spec.
  - by apply holds_install.
  - by apply Hframe.
  - intros Heq. pose proof (heap_top_fresh (delete pt (heap s))) as Hf.
    rewrite Heq, lookup_delete_ne in Hf by done. congruence.
  - done.
  - done.
Qed.

(** X5. On a well-formed queue [Front()] is the oldest element and
    [Back()] the newest, and neither changes the state. *)
Theorem Front_Back_ends s this p cap l :
  holds s this p cap l →
  (∀ x l', l = x :: l' → Front this s = Ok x s) ∧
  (∀ y l', l = l' ++ [y] → Back this s = Ok y s).
Proof.
  intros Hh. split.
  - intros x l' ->. by eapply Front_spec.
  - intros y l' ->. by eapply Back_spec.
Qed.

(** X6. Neither [Front()] nor [Back()] checks for an empty queue: on one,
    [Front()] reads slot 0, which is raw storage, and [Back()] reads slot
    [m_Size - 1], which is 2^64 - 1; both are undefined behaviour. *)
Theorem Front_Back_empty_undefined s this p cap :
  holds s this p cap [] → Front this s = UB ∧ Back this s = UB.
Proof.
  intros (Hq & Hb & Hl & Hc & Hm). pose proof (bytes_bound _ Hm) as Hcap. split.
  - unfold Front. erewrite bind_Ok by (by apply load_eq). cbn [m_Container].
    unfold read, bind, load_slot. rewrite Hb. cbn [blk_slots].
    rewrite slots_of_nil, lookup_replicate_2 by lia. done.
  - unfold Back. erewrite bind_Ok by (by apply load_eq). cbn [m_Container m_Size length].
    assert (PTRDIFF_MAX < wrap_sub (N.of_nat 0) 1) as Hbig by (by vm_compute).
    set (i := wrap_sub (N.of_nat 0) 1) in *.
    unfold read, bind, load_slot. rewrite Hb. cbn [blk_slots].
    rewrite lookup_ge_None_2; [done |]. rewrite slots_of_nil, length_replicate. lia.
Qed.

(** X7. [Pop()] on a non-empty well-formed queue removes the front and
    moves every other element one slot towards the front, in the same
    buffer: the capacity is what it was, no block is allocated or released,
    the slot behind the last element is raw storage again, and every other
    queue is as it was. *)
Theorem Pop_shifts_down s this p cap x l :
  holds s this p cap (x :: l) →
  ∃ s',
    Pop this s = Ok tt s' ∧
    holds s' this p cap l ∧
    dom (heap s') = dom (heap s) ∧
    (∀ i y, (x :: l) !! S i = Some y → read p (N.of_nat i) s' = Ok y s') ∧
    load_slot p (N.of_nat (length l)) s' = Ok Uninit s' ∧
    (∀ that p' cap' l',
       holds s that p' cap' l' → that ≠ this → p' ≠ p → holds s' that p' cap' l').
Proof.
  intros Hh. pose proof Hh as (Hq & Hb & Hl & Hc & Hm). simpl in Hl.
  assert (holds (install s this p cap l) this p cap l) as Hh'
    by (apply holds_install; [lia | done | done]).
  exists (install s this p cap l). split_and!.
  - by eapply Pop_spec.
  - done.
  - unfold install. cbn [heap]. apply dom_insert_lookup_L. by rewrite Hb.
  - intros i y Hi. by eapply holds_read.
  - eapply load_slot_eq; [by destruct Hh' as (_ & ? & _) |]. cbn [blk_slots].
    rewrite Nat2N.id, slots_of_room by lia.
    apply list_lookup_middle. by rewrite length_fmap.
  - intros that p' cap' l' ???. by apply install_frame.
Qed.

(** X8. After [n] pushes into a default-constructed queue the capacity is
    the least power of two that is at least [n] (1 for no push). *)
Theorem capacity_after_pushes s this vs :
  N.max 1 (2 * N.of_nat (length vs)) * sizeofT ≤ PTRDIFF_MAX →
  ∃ p s',
    (Queue_default this >> run this (OPush <$> vs)) s = Ok [] s' ∧
    holds s' this p (2 ^ N.log2_up (N.of_nat (length vs))) vs ∧
    Capacity this s' = Ok (2 ^ N.log2_up (N.of_nat (length vs))) s'.
Proof.
  intros Hmem. pose proof sizeofT_pos as Hpos.
  erewrite bind_Ok by apply Queue_default_spec.
  destruct (pushes_capacity this vs (install s this (heap_top (heap s)) 1 [])
              (heap_top (heap s)) 0 [])
    as (p' & k' & s' & Hrun & Hh & Hk).
  { apply (holds_install s this (heap_top (heap s)) 1 []); simpl; nia. }
  { by left. }
  { simpl. nia. }
  simpl in Hh, Hk.
  assert (k' = N.log2_up (N.of_nat (length vs))) as <-.
  { apply pow2_log2_up; [by destruct Hh as (_ & _ & ? & _) | done]. }
  exists p', s'. split_and!; [done | done | by eapply Capacity_spec].
Qed.

(** X9. [Reallocate(newCapacity)] with a larger capacity, on a well-formed
    queue: the elements are in the new buffer, in order; the size is what it
    was; the old block is released; every other queue is as it was. *)
Theorem Reallocate_moves_elements s this p cap l newCapacity :
  holds s this p cap l → cap < newCapacity → newCapacity * sizeofT ≤ PTRDIFF_MAX →
  ∃ s' p',
    Reallocate this newCapacity s = Ok tt s' ∧
    holds s' this p' newCapacity l ∧
    heap s !! p' = None ∧
    heap s' !! p = None ∧
    (∀ that p2 c2 l2,
       holds s that p2 c2 l2 → that ≠ this → p2 ≠ p → holds s' that p2 c2 l2).
Proof.
  intros Hh Hlt Hmem. pose proof Hh as (Hq & Hb & Hl & Hc & Hm).
  set (p' := heap_top (heap s)).
  assert (heap s !! p' = None) as Hfresh by apply heap_top_fresh.
  assert (p' ≠ p) as Hne by congruence.
  exists (install (release s p) this p' newCapacity l), p'. split_and!.
  - by apply (Reallocate_spec s this p cap l).
  - apply holds_install; lia.
  - done.
  - unfold install, release. cbn [heap]. rewrite lookup_insert_ne by done.
    by rewrite lookup_delete_eq.
  - intros that p2 c2 l2 Hh2 ??.
    apply install_frame; [by apply release_frame | done |].
    destruct Hh2 as (_ & Hb2 & _). congruence.
Qed.


(** X11. When a full queue cannot grow because twice its buffer is more
    than the allocator gives, [Push], by copy or by move, throws
    [std::bad_alloc] and leaves the state exactly as it was. *)
Theorem Push_out_of_memory_unchanged s this p cap l value :
  holds s this p cap l → N.of_nat (length l) = cap → PTRDIFF_MAX < 2 * cap * sizeofT →
  Push this value s = Throw bad_alloc s ∧ Push_move this value s = Throw bad_alloc s.
Proof.
  intros Hh Hfull Hmem. by eapply Push_bad_alloc.
Qed.

(** X12. When doubling [m_Capacity] does not make it larger (it is 0, or
    the product wraps around), [Push] on a full queue throws
    [std::invalid_argument] before touching anything: the check in
    [Reallocate] keeps the capacity from shrinking. *)
Theorem Push_capacity_overflow_rejected s this q value :
  objs s !! this = Some q →
  m_Capacity q ≤ m_Size q →
  wrap (m_Capacity q * 2) ≤ m_Capacity q →
  Push this value s = Throw invalid_argument s ∧
  Push_move this value s = Throw invalid_argument s.
Proof.
  intros Hq Hfull Hwrap.
  assert (Reallocate this (wrap (m_Capacity q * 2)) s = Throw invalid_argument s) as HR.
  { unfold Reallocate. erewrite bind_Ok by (by apply load_eq).
    apply N.leb_le in Hwrap. by rewrite Hwrap. }
  apply N.leb_le in Hfull. split.
  - unfold Push. erewrite bind_Ok by (by apply load_eq).
    rewrite Hfull. by erewrite bind_Throw.
  - unfold Push_move. erewrite bind_Ok by (by apply load_eq).
    rewrite Hfull. by erewrite bind_Throw.
Qed.

(** X13. After any sequence of [Push] and [Pop] on a default-constructed
    queue, [Size()] is the number of pushes minus the number of pops that
    found an element, and [Empty()] says whether that is 0. *)
Theorem Size_counts_pushes_minus_pops s this ops :
  N.max 1 (2 * N.of_nat (length (pushed ops))) * sizeofT ≤ PTRDIFF_MAX →
  ∃ obs s',
    (Queue_default this >> run this ops) s = Ok obs s' ∧
    Size this s' = Ok (N.of_nat (queued ops 0)) s' ∧
    Empty this s' = Ok (bool_decide (queued ops 0 = 0%nat)) s' ∧
    (length obs + queued ops 0 = length (pushed ops))%nat.
Proof.
  intros Hmem.
  destruct (run_from_default s this ops Hmem)
    as (obs & rest & p & cap & Hrun & Hp & Hh & Heq & Hlen).
  exists obs, (install s this p cap rest). split_and!.
  - done.
  - erewrite Size_spec by done. by rewrite Hlen.
  - erewrite Empty_spec by done. rewrite <- Hlen. by destruct rest.
  - rewrite Heq, length_app. lia.
Qed.

(** X16. On a full well-formed queue with memory to grow, [Push], by copy
    or by move, of a reference into the queue's own buffer is undefined
    behaviour: the argument is read after [Reallocate] has released that
    buffer. *)
Theorem Push_own_element_when_full_undefined s this p cap l i :
  holds s this p cap l → N.of_nat (length l) = cap → 2 * cap * sizeofT ≤ PTRDIFF_MAX →
  Push this (Inside p i) s = UB ∧ Push_move this (Inside p i) s = UB.
Proof. intros Hh Hfull Hmem. by apply (Push_ref_dangling s this p cap l). Qed.

End more.

(** * [Queue<int>] *)

Section int_queue.

Local Ltac evaluate := vm_compute; first [reflexivity | done].

(** The scenarios of the specification. *)
Example default_constructed :
  (Queue_default 10 >>
   let* n := Size 10 in let* e := Empty 10 in let* c := Capacity 10 in
   ret (n, e, c)) s_empty
  = Ok (0, true, 1) s_fresh.
Proof. evaluate. Qed.

Example push_pop_scenario :
  (Queue_default 10 >> Push 10 (Outside 1) >> Push 10 (Outside 2) >> Push 10 (Outside 3) >>
   let* f1 := Front 10 in let* b1 := Back 10 in let* n1 := Size 10 in
   Pop 10 >>
   let* f2 := Front 10 in let* n2 := Size 10 in
   Push 10 (Outside 4) >> Push 10 (Outside 5) >>
   let* n3 := Size 10 in
   let* rest := run 10 [OPop; OPop; OPop; OPop] in
   ret (f1, b1, n1, f2, n2, n3, rest))%Z s_empty
  = Ok (1%Z, 3%Z, 3, 2%Z, 2, 4, [2; 3; 4; 5]%Z)
       (State {[4108 := Block 16 [Uninit; Uninit; Uninit; Uninit]]} {[10 := MkQueue 4108 0 4]}).
Proof. evaluate. Qed.

Example s_12_reached :
  (Queue_default 10 >> Push 10 (Outside 1) >> Push 10 (Outside 2))%Z s_empty = Ok tt s_12.
Proof. evaluate. Qed.

Example s_123_reached : Push 10 (Outside 3%Z) s_12 = Ok tt s_123.
Proof. evaluate. Qed.

Example s_12_7_reached : (Queue_default 11 >> Push 11 (Outside 7%Z)) s_12 = Ok tt s_12_7.
Proof. evaluate. Qed.

Lemma holds_s_fresh : holds s_fresh 10 4096 1 [].
Proof. unfold holds. split_and!; evaluate. Qed.

Lemma holds_s_12 : holds s_12 10 4100 2 [1; 2]%Z.
Proof. unfold holds. split_and!; evaluate. Qed.

Lemma holds_s_123 : holds s_123 10 4108 4 [1; 2; 3]%Z.
Proof. unfold holds. split_and!; evaluate. Qed.

Lemma sized_s_12 : sized s_12.
Proof.
  intros this q. unfold s_12. cbn [objs].
  intros [<- <-]%lookup_singleton_Some. evaluate.
Qed.

(** C2. The move constructor as written, at [Queue<int> q] holding 1, 2:
    [Queue<int> r(std::move(q))] returns with [r.m_Container] set to the
    number 2, the capacity of [q], where no block lives, so [r.Front()] is
    undefined; [q] has size 0 and capacity 1 but still points to its old
    buffer of two slots, in which 1 and 2 are still alive. *)
Theorem move_constructor_as_written :
  holds s_12 10 4100 2 [1; 2]%Z ∧
  Queue_move 11 10 s_12 = Ok tt s_12_moved ∧
  objs s_12_moved !! 11 = Some (MkQueue 2 2 2) ∧
  heap s_12_moved !! 2 = None ∧
  Front 11 s_12_moved = UB ∧
  objs s_12_moved !! 10 = Some (MkQueue 4100 0 1) ∧
  heap s_12_moved !! 4100 = Some (Block 8 [Live 1; Live 2]%Z) ∧
  ¬ ∃ p cap, holds s_12_moved 11 p cap [1; 2]%Z.
Proof.
  split_and!; [apply holds_s_12 | evaluate..|].
  intros (p & cap & Hq & Hb & _).
  assert (objs s_12_moved !! 11 = Some (MkQueue 2 2 2)) as Hq' by evaluate.
  rewrite Hq' in Hq. injection Hq as <- <-.
  assert (heap s_12_moved !! 2 = None) as Hb' by evaluate.
  by rewrite Hb' in Hb.
Qed.

(** C3. Move assignment as written, at [Queue<int> q] holding 1, 2 and
    [Queue<int> r] holding 7: [r = std::move(q)] returns with
    [r.m_Container] set to the number 2, where no block lives; the buffer
    [r] had is still allocated and 7 is still alive in it; [q] still points
    to its old buffer. Copy assignment, at the same state, releases the
    buffer [r] had. *)
Theorem move_assignment_as_written :
  holds s_12_7 10 4100 2 [1; 2]%Z ∧
  holds s_12_7 11 4108 1 [7]%Z ∧
  assign_move 11 10 s_12_7 = Ok tt s_12_7_moved ∧
  objs s_12_7_moved !! 11 = Some (MkQueue 2 2 2) ∧
  heap s_12_7_moved !! 2 = None ∧
  Front 11 s_12_7_moved = UB ∧
  heap s_12_7_moved !! 4108 = Some (Block 4 [Live 7]%Z) ∧
  objs s_12_7_moved !! 10 = Some (MkQueue 4100 0 1) ∧
  heap s_12_7_moved !! 4100 = Some (Block 8 [Live 1; Live 2]%Z) ∧
  assign_copy 11 10 s_12_7 = Ok tt s_12_7_copied ∧
  holds s_12_7_copied 11 4108 2 [1; 2]%Z.
Proof.
  split_and!; try evaluate; unfold holds; split_and!; evaluate.
Qed.

Lemma holds_s_1 : holds s_1 10 4096 1 [1]%Z.
Proof. unfold holds. split_and!; evaluate. Qed.

(** C8. [Push] reads its argument after [Reallocate]. At
    [Queue<int> q; q.Push(1);] the queue is full and [q.Front()] refers to
    slot 0 of its buffer, a live 1. In [q.Push(q.Front())], by copy or by
    move, [Reallocate(2)] moves the element out, destroys it and releases
    that buffer; the argument is read afterwards, from a block that is
    gone: undefined behaviour, where pushing a copy of the same value gives
    a queue whose back is 1. *)
Theorem Push_reads_argument_after_growth :
  (Queue_default 10 >> Push 10 (Outside 1%Z)) s_empty = Ok tt s_1 ∧
  holds s_1 10 4096 1 [1]%Z ∧
  Front_ref 10 s_1 = Ok (Inside 4096 0) s_1 ∧
  designates s_1 (Inside 4096 0) 1%Z ∧
  Reallocate 10 2 s_1 = Ok tt s_1_grown ∧
  heap s_1_grown !! 4096 = None ∧
  deref (Inside 4096 0) s_1_grown = UB ∧
  Push 10 (Inside 4096 0) s_1 = UB ∧
  Push_move 10 (Inside 4096 0) s_1 = UB ∧
  (let* x := Front 10 in Push 10 (Outside x) >> Back 10) s_1
  = Ok 1%Z (State {[4100 := Block 8 [Live 1%Z; Live 1%Z]]} {[10 := MkQueue 4100 2 2]}).
Proof.
  split_and!; [evaluate | apply holds_s_1 | evaluate | | evaluate..].
  eexists. split; evaluate.
Qed.

(** C1. The sequence [Queue<int> q; q.Push(1); q.Push(q.Front());] does not
    get as far as the pops: the second [Push] finds the queue full, and
    reads its argument from the buffer [Reallocate] has just released,
    which is undefined behaviour. With a copy of the front in place of the
    reference, the same sequence followed by two pops sees 1 and 1, the
    pushed values in push order. *)
Theorem Push_of_front_breaks_FIFO :
  (Queue_default 10 >>
   Push 10 (Outside 1%Z) >>
   let* r := Front_ref 10 in
   Push 10 r >>
   run 10 [OPop; OPop]) s_empty
  = UB ∧
  (Queue_default 10 >>
   Push 10 (Outside 1%Z) >>
   let* x := Front 10 in
   Push 10 (Outside x) >>
   run 10 [OPop; OPop]) s_empty
  = Ok [1; 1]%Z (State {[4100 := Block 8 [Uninit; Uninit]]} {[10 := MkQueue 4100 0 2]}).
Proof. split; evaluate. Qed.

(** ** The theorems at [Queue<int>] *)

Lemma FIFO_order_witness :
  N.max 1 (2 * N.of_nat (length (pushed [OPush 1; OPush 2; OPush 3; OPop; OPush 4; OPop]%Z)))
    * sizeofT ≤ PTRDIFF_MAX ∧
  ∃ obs rest p cap s',
    (Queue_default 10 >> run 10 [OPush 1; OPush 2; OPush 3; OPop; OPush 4; OPop]%Z) s_empty
    = Ok obs s' ∧
    holds s' 10 p cap rest ∧
    obs ++ rest = pushed [OPush 1; OPush 2; OPush 3; OPop; OPush 4; OPop]%Z ∧
    length rest = queued [OPush 1; OPush 2; OPush 3; OPop; OPush 4; OPop]%Z 0 ∧
    (∀ n x, obs !! n = Some x →
            pushed [OPush 1; OPush 2; OPush 3; OPop; OPush 4; OPop]%Z !! n = Some x).
Proof.
  split; [evaluate |]. apply FIFO_order. evaluate.
Defined.

Lemma Reallocate_rejects_non_growth_witness :
  objs s_12 !! 10 = Some (MkQueue 4100 2 2) ∧
  Reallocate 10 1 s_12 = Throw invalid_argument s_12 ∧
  Reallocate 10 2 s_12 = Throw invalid_argument s_12 ∧
  (∀ s', Reallocate 10 4 s_12 ≠ Throw invalid_argument s').
Proof.
  assert (objs s_12 !! 10 = Some (MkQueue 4100 2 2)) as Hq by evaluate.
  split_and!; [exact Hq | | |].
  - apply (Reallocate_rejects_non_growth s_12 10 _ 1 Hq). evaluate.
  - apply (Reallocate_rejects_non_growth s_12 10 _ 2 Hq). evaluate.
  - apply (Reallocate_rejects_non_growth s_12 10 _ 4 Hq). evaluate.
Defined.

Lemma capacity_bounds_size_witness :
  sized s_12 ∧
  exec (CMutate 10 (MPush 3%Z)) s_12 = Ok tt s_123 ∧
  sized s_123 ∧
  ∃ q', objs s_123 !! 10 = Some q' ∧ m_Capacity (MkQueue 4100 2 2) ≤ m_Capacity q'.
Proof.
  assert (exec (CMutate 10 (MPush 3%Z)) s_12 = Ok tt s_123) as Hexec by evaluate.
  destruct (capacity_bounds_size s_12 (CMutate 10 (MPush 3%Z)) sized_s_12) as [Hok _].
  destruct (Hok s_123 Hexec) as (Hsized & _ & Hcap).
  split_and!; [apply sized_s_12 | exact Hexec | exact Hsized |].
  apply (Hcap 10 (MPush 3%Z)); [done | evaluate].
Defined.

Lemma copy_is_independent_witness :
  holds s_12 10 4100 2 [1; 2]%Z ∧ 11 ≠ 10 ∧
  ∃ s' p',
    Queue_copy 11 10 s_12 = Ok tt s' ∧
    holds s' 11 p' 2 [1; 2]%Z ∧
    holds s' 10 4100 2 [1; 2]%Z ∧
    p' ≠ 4100 ∧
    objs s' !! 10 = objs s_12 !! 10 ∧
    heap s' !! 4100 = heap s_12 !! 4100 ∧
    ∀ ms,
      match mutate_all 11 ms s' with
      | Ok _ s'' | Throw _ s'' => holds s'' 10 4100 2 [1; 2]%Z
      | UB => False
      end ∧
      match mutate_all 10 ms s' with
      | Ok _ s'' | Throw _ s'' => holds s'' 11 p' 2 [1; 2]%Z
      | UB => False
      end.
Proof.
  split; [apply holds_s_12 |]. split; [done |].
  apply copy_is_independent; [apply holds_s_12 | done].
Defined.

Lemma Pop_Clear_empty_noop_witness :
  objs s_fresh !! 10 = Some (MkQueue 4096 0 1) ∧
  m_Size (MkQueue 4096 0 1) = 0 ∧
  Pop 10 s_fresh = Ok tt s_fresh ∧ Clear 10 s_fresh = Ok tt s_fresh.
Proof.
  split; [evaluate |]. split; [done |].
  apply (Pop_Clear_empty_noop s_fresh 10 (MkQueue 4096 0 1)); evaluate.
Defined.

Lemma Push_appends_witness :
  holds s_12 10 4100 2 [1; 2]%Z ∧
  designates s_12 (Outside 3%Z) 3%Z ∧
  (∃ s' p',
     Push 10 (Outside 3%Z) s_12 = Ok tt s' ∧
     Push_move 10 (Outside 3%Z) s_12 = Ok (Outside 3%Z) s' ∧
     holds s' 10 p' 4 [1; 2; 3]%Z ∧
     heap s' !! 4100 = None ∧
     Back 10 s' = Ok 3%Z s') ∧
  holds s_123 10 4108 4 [1; 2; 3]%Z ∧
  designates s_123 (Inside 4108 0) 1%Z ∧
  (∃ s',
     Push 10 (Inside 4108 0) s_123 = Ok tt s' ∧
     holds s' 10 4108 4 [1; 2; 3; 1]%Z ∧
     Back 10 s' = Ok 1%Z s').
Proof.
  assert (designates s_123 (Inside 4108 0) 1%Z) as Hown by (eexists; split; evaluate).
  split; [apply holds_s_12 |]. split; [done |]. split; [| split; [apply holds_s_123 |]].
  - destruct (Push_appends s_12 10 4100 2 [1; 2]%Z (Outside 3%Z) 3%Z holds_s_12 eq_refl)
      as (s' & p' & cap' & HP & HM & Hh & Hg & _ & HB & _).
    { intros _. split; [evaluate | done]. }
    destruct (Hg eq_refl) as (-> & _ & Hgone).
    exists s', p'. split_and!; [exact HP | by apply HM | exact Hh | exact Hgone | exact HB].
  - split; [exact Hown |].
    destruct (Push_appends s_123 10 4108 4 [1; 2; 3]%Z (Inside 4108 0) 1%Z holds_s_123 Hown)
      as (s' & p' & cap' & HP & _ & Hh & _ & Hr & HB & _).
    { intros Hfull. discriminate Hfull. }
    destruct Hr as [-> ->]; [done |].
    exists s'. split_and!; [exact HP | exact Hh | exact HB].
Defined.

Lemma Clear_keeps_capacity_witness :
  holds s_123 10 4108 4 [1; 2; 3]%Z ∧
  ∃ s',
    Clear 10 s_123 = Ok tt s' ∧
    holds s' 10 4108 4 [] ∧
    Size 10 s' = Ok 0 s' ∧
    Capacity 10 s_123 = Ok 4 s_123 ∧
    Capacity 10 s' = Ok 4 s' ∧
    heap s' !! 4108 = Some (Block (4 * sizeofT) (replicate (N.to_nat 4) Uninit)) ∧
    dom (heap s') = dom (heap s_123).
Proof.
  split; [apply holds_s_123 |].
  apply (Clear_keeps_capacity s_123 10 4108 4 [1; 2; 3]%Z). apply holds_s_123.
Defined.

(** ** More of the class at [Queue<int>] *)

Lemma holds_s_12_7_source : holds s_12_7 10 4100 2 [1; 2]%Z.
Proof. unfold holds. split_and!; evaluate. Qed.

Lemma holds_s_12_7_target : holds s_12_7 11 4108 1 [7]%Z.
Proof. unfold holds. split_and!; evaluate. Qed.

Lemma holds_s_huge : @holds unit huge_Element s_huge 10 4096 1 [tt].
Proof. unfold holds. split_and!; evaluate. Qed.

Lemma destructor_releases_witness :
  holds s_12 10 4100 2 [1; 2]%Z ∧
  ∃ s',
    Queue_destroy 10 s_12 = Ok tt s' ∧
    heap s' = delete 4100 (heap s_12) ∧
    objs s' = delete 10 (objs s_12).
Proof.
  split; [apply holds_s_12 |].
  destruct (destructor_releases s_12 10 4100 2 [1; 2]%Z holds_s_12) as (s' & Hd & Hh & Ho & _).
  exists s'. split_and!; [exact Hd | exact Hh | exact Ho].
Defined.

Lemma lifetime_restores_state_witness :
  objs s_12 !! 11 = None ∧
  N.max 1 (2 * N.of_nat (length (pushed [OPush 7; OPop; OPop; OPush 8; OPush 9]%Z)))
    * sizeofT ≤ PTRDIFF_MAX ∧
  (Queue_default 11 >>
   let* _ := run 11 [OPush 7; OPop; OPop; OPush 8; OPush 9]%Z in
   Queue_destroy 11) s_12
  = Ok tt s_12.
Proof.
  split; [evaluate |]. split; [evaluate |].
  apply lifetime_restores_state; evaluate.
Defined.

Lemma copy_destroy_round_trip_witness :
  holds s_12 10 4100 2 [1; 2]%Z ∧
  objs s_12 !! 11 = None ∧
  (Queue_copy 11 10 >> Queue_destroy 11) s_12 = Ok tt s_12.
Proof.
  split; [apply holds_s_12 |]. split; [evaluate |].
  apply (copy_destroy_round_trip s_12 11 10 4100 2 [1; 2]%Z); [apply holds_s_12 | evaluate].
Defined.

Lemma copy_assignment_replaces_witness :
  holds s_12_7 11 4108 1 [7]%Z ∧
  holds s_12_7 10 4100 2 [1; 2]%Z ∧
  11 ≠ 10 ∧ 4108 ≠ 4100 ∧
  ∃ s' p',
    assign_copy 11 10 s_12_7 = Ok tt s' ∧
    holds s' 11 p' 2 [1; 2]%Z ∧
    holds s' 10 4100 2 [1; 2]%Z ∧
    p' ≠ 4100.
Proof.
  split; [apply holds_s_12_7_target |]. split; [apply holds_s_12_7_source |].
  split; [done |]. split; [done |].
  destruct (copy_assignment_replaces s_12_7 11 4108 1 [7]%Z 10 4100 2 [1; 2]%Z
              holds_s_12_7_target holds_s_12_7_source)
    as (s' & p' & Ha & Ht & Hs & Hp & _); [done | done |].
  exists s', p'. split_and!; [exact Ha | exact Ht | exact Hs | exact Hp].
Defined.

Lemma Front_Back_ends_witness :
  holds s_123 10 4108 4 [1; 2; 3]%Z ∧
  Front 10 s_123 = Ok 1%Z s_123 ∧
  Back 10 s_123 = Ok 3%Z s_123.
Proof.
  split; [apply holds_s_123 |].
  destruct (Front_Back_ends s_123 10 4108 4 [1; 2; 3]%Z holds_s_123) as [HF HB].
  split; [apply (HF 1%Z [2; 3]%Z eq_refl) | apply (HB 3%Z [1; 2]%Z eq_refl)].
Defined.

Lemma Front_Back_empty_undefined_witness :
  holds s_fresh 10 4096 1 [] ∧
  Front 10 s_fresh = UB ∧ Back 10 s_fresh = UB.
Proof.
  split; [apply holds_s_fresh |].
  apply (Front_Back_empty_undefined s_fresh 10 4096 1 holds_s_fresh).
Defined.

Lemma Push_own_element_when_full_undefined_witness :
  holds s_12 10 4100 2 [1; 2]%Z ∧
  N.of_nat (length [1; 2]%Z) = 2 ∧
  2 * 2 * sizeofT ≤ PTRDIFF_MAX ∧
  Back_ref 10 s_12 = Ok (Inside 4100 1) s_12 ∧
  Push 10 (Inside 4100 1) s_12 = UB ∧
  Push_move 10 (Inside 4100 1) s_12 = UB.
Proof.
  split; [apply holds_s_12 |]. split; [done |]. split; [evaluate |]. split; [evaluate |].
  apply (Push_own_element_when_full_undefined s_12 10 4100 2 [1; 2]%Z 1);
    [apply holds_s_12 | done | evaluate].
Defined.


Lemma Pop_shifts_down_witness :
  holds s_123 10 4108 4 [1; 2; 3]%Z ∧
  ∃ s',
    Pop 10 s_123 = Ok tt s' ∧
    holds s' 10 4108 4 [2; 3]%Z ∧
    dom (heap s') = dom (heap s_123) ∧
    load_slot 4108 2 s' = Ok Uninit s'.
Proof.
  split; [apply holds_s_123 |].
  destruct (Pop_shifts_down s_123 10 4108 4 1%Z [2; 3]%Z holds_s_123)
    as (s' & HP & Hh & Hd & _ & Hslot & _).
  exists s'. split_and!; [exact HP | exact Hh | exact Hd | exact Hslot].
Defined.

Lemma capacity_after_pushes_witness :
  N.max 1 (2 * N.of_nat (length [1; 2; 3; 4; 5]%Z)) * sizeofT ≤ PTRDIFF_MAX ∧
  ∃ p s',
    (Queue_default 10 >> run 10 (OPush <$> [1; 2; 3; 4; 5]%Z)) s_empty = Ok [] s' ∧
    holds s' 10 p 8 [1; 2; 3; 4; 5]%Z ∧
    Capacity 10 s' = Ok 8 s'.
Proof.
  split; [evaluate |].
  apply (capacity_after_pushes s_empty 10 [1; 2; 3; 4; 5]%Z). evaluate.
Defined.

Lemma Reallocate_moves_elements_witness :
  holds s_12 10 4100 2 [1; 2]%Z ∧ 2 < 5 ∧ 5 * sizeofT ≤ PTRDIFF_MAX ∧
  ∃ s' p',
    Reallocate 10 5 s_12 = Ok tt s' ∧
    holds s' 10 p' 5 [1; 2]%Z ∧
    heap s_12 !! p' = None ∧
    heap s' !! 4100 = None.
Proof.
  split; [apply holds_s_12 |]. split; [done |]. split; [evaluate |].
  destruct (Reallocate_moves_elements s_12 10 4100 2 [1; 2]%Z 5 holds_s_12)
    as (s' & p' & HR & Hh & Hf & Hg & _); [done | evaluate |].
  exists s', p'. split_and!; [exact HR | exact Hh | exact Hf | exact Hg].
Defined.

Lemma Push_out_of_memory_unchanged_witness :
  @holds unit huge_Element s_huge 10 4096 1 [tt] ∧
  N.of_nat (length [tt]) = 1 ∧
  PTRDIFF_MAX < 2 * 1 * @sizeofT unit huge_Element ∧
  @Push unit huge_Element 10 (Outside tt) s_huge = Throw bad_alloc s_huge ∧
  @Push_move unit huge_Element 10 (Outside tt) s_huge = Throw bad_alloc s_huge.
Proof.
  split; [apply holds_s_huge |]. split; [done |]. split; [evaluate |].
  apply (@Push_out_of_memory_unchanged unit huge_Element s_huge 10 4096 1 [tt] (Outside tt));
    [apply holds_s_huge | done | evaluate].
Defined.

Lemma Push_capacity_overflow_rejected_witness :
  objs s_wide !! 10 = Some (MkQueue 4096 9223372036854775808 9223372036854775808) ∧
  wrap (9223372036854775808 * 2) = 0 ∧
  Push 10 (Outside 5%Z) s_wide = Throw invalid_argument s_wide ∧
  Push_move 10 (Outside 5%Z) s_wide = Throw invalid_argument s_wide.
Proof.
  split; [evaluate |]. split; [evaluate |].
  apply (Push_capacity_overflow_rejected s_wide 10
           (MkQueue 4096 9223372036854775808 9223372036854775808) (Outside 5%Z)); evaluate.
Defined.

Lemma Size_counts_pushes_minus_pops_witness :
  N.max 1 (2 * N.of_nat (length (pushed [OPush 1; OPush 2; OPush 3; OPop; OPush 4; OPop]%Z)))
    * sizeofT ≤ PTRDIFF_MAX ∧
  ∃ obs s',
    (Queue_default 10 >> run 10 [OPush 1; OPush 2; OPush 3; OPop; OPush 4; OPop]%Z) s_empty
    = Ok obs s' ∧
    Size 10 s' = Ok 2 s' ∧
    Empty 10 s' = Ok false s' ∧
    (length obs + 2 = 4)%nat.
Proof.
  split; [evaluate |].
  apply (Size_counts_pushes_minus_pops s_empty 10
           [OPush 1; OPush 2; OPush 3; OPop; OPush 4; OPop]%Z).
  evaluate.
Defined.

End int_queue.
